(** * Verification of the optimisation scripts of mjsms/otimizacao

  The repository consists of three scripts, [transporte.py], [afetacao.py]
  and [metas.py].  Each one states a linear (or 0/1) programme through the
  PuLP modelling layer, hands it to the solver, reads the solved values
  back and re-solves a perturbed copy of the programme in a loop.

  The scripts are embedded shallowly: a PuLP variable is a record, a linear
  expression is the list of its terms, a problem is its objective and its
  list of constraints, and the values a solve leaves in the variables are a
  function from variable names to numbers.  Python floats are read as
  exact rationals ([Q]); every constant of the scripts is a dyadic number,
  so nothing is rounded when the data is written down. *)

From Stdlib Require Import QArith Qreduction Qcanon Lqa Lia ZArith Sorted.
From stdpp Require Import gmap strings list fin_maps.

Local Open Scope string_scope.
Local Open Scope Q_scope.

(** ** The modelling layer *)

Module Pulp.

Inductive LpCategory := LpContinuous | LpInteger | LpBinary.

Record LpVariable := MkLpVariable {
  name : string;
  lowBound : option Q;
  upBound : option Q;
  cat : LpCategory
}.

(** Modelled from the spec: the constructor [LpVariable(name, lowBound,
    upBound, cat)] belongs to the modelling library, not to the scripts.
    The data model gives a binary variable the bounds [0, 1]; the other
    domains keep the bounds the caller passed ([None] is an absent
    bound). *)
Definition LpVariable_new (n : string) (lo up : option Q)
    (c : LpCategory) : LpVariable :=
  match c with
  | LpBinary => MkLpVariable n (Some 0) (Some 1) LpBinary
  | _ => MkLpVariable n lo up c
  end.

(** A linear expression: the terms [coefficient * variable] in the order
    they were added.  A variable may occur in several terms; the value of
    the expression adds them up, as merging the coefficients would. *)
Definition LpAffineExpression := list (Q * LpVariable).

Definition term (c : Q) (v : LpVariable) : LpAffineExpression := [(c, v)].
Definition var (v : LpVariable) : LpAffineExpression := term 1 v.
Definition lpSum (es : list LpAffineExpression) : LpAffineExpression :=
  concat es.
Definition expr_add (e1 e2 : LpAffineExpression) : LpAffineExpression :=
  (e1 ++ e2)%list.
Definition expr_scale (k : Q) (e : LpAffineExpression)
    : LpAffineExpression :=
  map (fun t => (k * fst t, snd t)) e.
Definition expr_sub (e1 e2 : LpAffineExpression) : LpAffineExpression :=
  (e1 ++ expr_scale (-1) e2)%list.

Inductive LpConstraintSense :=
  LpConstraintLE | LpConstraintEQ | LpConstraintGE.

Record LpConstraint := MkLpConstraint {
  cexpr : LpAffineExpression;
  csense : LpConstraintSense;
  crhs : Q;
  cname : option string
}.

Inductive LpSense := LpMinimize | LpMaximize.

Record LpProblem := MkLpProblem {
  pname : string;
  sense : LpSense;
  objective : LpAffineExpression;
  constraints : list LpConstraint
}.

(** [LpProblem(name, sense)], [model += expression] and
    [model += constraint]. *)
Definition LpProblem_new (n : string) (s : LpSense) : LpProblem :=
  MkLpProblem n s [] [].

Definition set_objective (m : LpProblem) (e : LpAffineExpression)
    : LpProblem :=
  MkLpProblem (pname m) (sense m) e (constraints m).

Definition add_constraint (m : LpProblem) (c : LpConstraint)
    : LpProblem :=
  MkLpProblem (pname m) (sense m) (objective m)
    (constraints m ++ [c])%list.

Definition add_constraints (m : LpProblem) (cs : list LpConstraint)
    : LpProblem :=
  foldl add_constraint m cs.

(** The variables of a problem are the ones its objective and its
    constraints mention. *)
Definition variables (m : LpProblem) : list LpVariable :=
  (map snd (objective m) ++
   flat_map (fun c => map snd (cexpr c)) (constraints m))%list.

(** *** Values *)

(** The values of the variables, by variable name. *)
Definition Assignment := string -> Q.

(** [value(expression)]: the expression at the variables' values. *)
Fixpoint value (e : LpAffineExpression) (a : Assignment) : Q :=
  match e with
  | [] => 0
  | (c, v) :: e' => c * a (name v) + value e' a
  end.

Definition is_integer (q : Q) : Prop := exists z : Z, q == inject_Z z.

Definition is_integerb (q : Q) : bool :=
  Pos.eqb (Qden (Qred q)) 1.

Definition above (lo : option Q) (q : Q) : Prop :=
  match lo with Some l => l <= q | None => True end.
Definition below (up : option Q) (q : Q) : Prop :=
  match up with Some u => q <= u | None => True end.

Definition in_domain (a : Assignment) (v : LpVariable) : Prop :=
  above (lowBound v) (a (name v)) /\
  below (upBound v) (a (name v)) /\
  match cat v with
  | LpContinuous => True
  | _ => is_integer (a (name v))
  end.

Definition satisfies (a : Assignment) (c : LpConstraint) : Prop :=
  match csense c with
  | LpConstraintLE => value (cexpr c) a <= crhs c
  | LpConstraintEQ => value (cexpr c) a == crhs c
  | LpConstraintGE => crhs c <= value (cexpr c) a
  end.

Definition feasible (m : LpProblem) (a : Assignment) : Prop :=
  Forall (satisfies a) (constraints m) /\
  Forall (in_domain a) (variables m).

(** The same tests as boolean functions. *)
Definition in_domainb (a : Assignment) (v : LpVariable) : bool :=
  match lowBound v with Some l => Qle_bool l (a (name v)) | None => true end
  && match upBound v with Some u => Qle_bool (a (name v)) u | None => true end
  && match cat v with
     | LpContinuous => true
     | _ => is_integerb (a (name v))
     end.

Definition satisfiesb (a : Assignment) (c : LpConstraint) : bool :=
  match csense c with
  | LpConstraintLE => Qle_bool (value (cexpr c) a) (crhs c)
  | LpConstraintEQ => Qeq_bool (value (cexpr c) a) (crhs c)
  | LpConstraintGE => Qle_bool (crhs c) (value (cexpr c) a)
  end.

Definition feasibleb (m : LpProblem) (a : Assignment) : bool :=
  forallb (satisfiesb a) (constraints m)
  && forallb (in_domainb a) (variables m).

(** [a] is at least as good as [b] for the direction of [m]. *)
Definition no_worse (m : LpProblem) (a b : Assignment) : Prop :=
  match sense m with
  | LpMinimize => value (objective m) a <= value (objective m) b
  | LpMaximize => value (objective m) b <= value (objective m) a
  end.

Definition optimal (m : LpProblem) (a : Assignment) : Prop :=
  feasible m a /\ forall b, feasible m b -> no_worse m a b.

(** The objective can be pushed past every bound inside the feasible
    region. *)
Definition unbounded (m : LpProblem) : Prop :=
  forall bound : Q, exists a, feasible m a /\
    match sense m with
    | LpMinimize => value (objective m) a < bound
    | LpMaximize => bound < value (objective m) a
    end.

(** *** The result of a solve *)

Inductive LpStatus :=
  LpStatusNotSolved | LpStatusOptimal | LpStatusInfeasible
| LpStatusUnbounded.

Record Solution := MkSolution {
  status : LpStatus;
  varValue : Assignment
}.

(** The objective value is defined only for an optimal solution; it is
    kept in lowest terms, so that equal values are identical. *)
Definition objectiveValue (m : LpProblem) (s : Solution) : option Q :=
  match status s with
  | LpStatusOptimal => Some (Qred (value (objective m) (varValue s)))
  | _ => None
  end.

(** Modelled from the spec: the solver itself ([model.solve()]) is the
    external engine behind the modelling library and is not part of the
    scripts.  Its contract is the status determination of the solve
    engine: [Infeasible] when no assignment satisfies all constraints,
    [Unbounded] when the objective improves without limit inside the
    feasible region, and otherwise [Optimal] with a feasible optimum as
    the assignment.  Ties between optima are not resolved by the contract,
    which is why it is a relation and not a function. *)
Inductive solve_spec (m : LpProblem) : Solution -> Prop :=
| solve_infeasible a :
    (forall b, ~ feasible m b) ->
    solve_spec m (MkSolution LpStatusInfeasible a)
| solve_unbounded a :
    (exists b, feasible m b) -> unbounded m ->
    solve_spec m (MkSolution LpStatusUnbounded a)
| solve_optimal a :
    optimal m a ->
    solve_spec m (MkSolution LpStatusOptimal a).

End Pulp.

(** ** Sums and dictionaries shared by the scripts *)

Module Script.
Import Pulp.

(** [sum(f(k) for k in l)]. *)
Fixpoint Qsum {A : Type} (f : A -> Q) (l : list A) : Q :=
  match l with
  | [] => 0
  | k :: l' => f k + Qsum f l'
  end.

(** [for i in l1 for j in l2], in the order the comprehension visits the
    pairs. *)
Definition pairs (l1 l2 : list string) : list (string * string) :=
  flat_map (fun i => map (fun j => (i, j)) l2) l1.

(** The total of a table over a list of keys (a missing key counts 0). *)
Definition total (d : gmap string Q) (keys : list string) : Q :=
  Qsum (fun k => default 0 (d !! k)) keys.

(** A [for] loop whose body may raise: the state after the last
    iteration, or [None] as soon as one iteration fails. *)
Fixpoint for_each {A S : Type} (body : A -> S -> option S)
    (l : list A) (s : S) : option S :=
  match l with
  | [] => Some s
  | v :: l' =>
      match body v s with
      | Some s' => for_each body l' s'
      | None => None
      end
  end.

(** [numpy.linspace(start, stop, num)]: [num] evenly spaced values, both
    ends included. *)
Definition linspace (start stop : Q) (num : nat) : list Q :=
  let step := (stop - start) / inject_Z (Z.of_nat (num - 1)) in
  map (fun k : nat => start + inject_Z (Z.of_nat k) * step) (seq 0 num).

(** *** The script state a sensitivity loop works on

    The cost tables are Python dictionaries, objects that a second name
    could alias; they live in a heap of dictionaries.  The loop appends one
    number per iteration to a result list, and [solved] records the models
    handed to the solver, in call order. *)
Record Store := MkStore {
  heap : gmap nat (gmap (string * string) Q);
  solved : list LpProblem;
  results : list Q
}.

(** [dict(d)]: a new dictionary object with the entries of the one at
    [src]; the new reference and the heap holding it. *)
Definition dict_copy (src : nat) (h : gmap nat (gmap (string * string) Q))
    : option (nat * gmap nat (gmap (string * string) Q)) :=
  d ← h !! src;
  let l := fresh (dom h) in
  Some (l, <[l := d]> h).

(** [d[k] = v] on the dictionary object at [l]. *)
Definition dict_setitem (l : nat) (k : string * string) (v : Q)
    (h : gmap nat (gmap (string * string) Q))
    : gmap nat (gmap (string * string) Q) :=
  alter (insert k v) l h.

(** A dictionary kept in insertion order: [d[k] = v] overwrites the entry
    of [k] in place, or appends a new one. *)
Fixpoint assoc_set {V : Type} (k : string) (v : V)
    (d : list (string * V)) : list (string * V) :=
  match d with
  | [] => [(k, v)]
  | (k', v') :: d' =>
      if decide (k = k') then (k, v) :: d' else (k', v') :: assoc_set k v d'
  end.

(** The values of the variables from a table of names and numbers; a
    variable the table does not list is 0. *)
Definition valores (l : list (string * Q)) : Assignment :=
  fun n => default 0 (snd <$> List.find (fun p => String.eqb (fst p) n) l).

(** The coefficient a variable name carries in an expression. *)
Definition coefficient (n : string) (e : LpAffineExpression) : Q :=
  Qsum (fun t => if String.eqb (name (snd t)) n then fst t else 0) e.

(** A boolean test for a list in non-decreasing order. *)
Fixpoint sortedb (l : list Q) : bool :=
  match l with
  | [] => true
  | c :: l' => forallb (Qle_bool c) l' && sortedb l'
  end.

(** Every variable of the model was created with lower bound 0. *)
Definition lower_bounds_zero (m : LpProblem) : Prop :=
  Forall (fun v => lowBound v = Some 0) (variables m).

(** No variable of the model has a negative value. *)
Definition nonnegative (m : LpProblem) (a : Assignment) : Prop :=
  Forall (fun v => 0 <= a (name v)) (variables m).

(** The model has lower bounds 0 throughout, it has an optimal
    assignment, and no assignment that satisfies it has a negative
    value. *)
Definition always_nonnegative (m : LpProblem) : Prop :=
  lower_bounds_zero m /\
  (exists a, optimal m a) /\
  forall a, feasible m a -> nonnegative m a.

End Script.

(** ** transporte.py *)

Module Transporte.
Import Pulp Script.

Section Formulation.
Variables armazens centros : list string.
Variables oferta procura : gmap string Q.

(** [x[(i,j)] = LpVariable(f"x_{i}_{j}", lowBound=0, cat="Continuous")].
    The dictionary of variables is read only at the keys it was built
    from, so it is written as the function it tabulates. *)
Definition x (i j : string) : LpVariable :=
  LpVariable_new ("x_" +:+ i +:+ "_" +:+ j) (Some 0) None LpContinuous.

(** [lpSum(custo[(i,j)] * x[(i,j)] for i in armazens for j in centros)];
    a key missing from the cost table raises. *)
Definition custo_total (custo : gmap (string * string) Q)
    : option LpAffineExpression :=
  lpSum <$> mapM (fun ij => c ← custo !! ij; Some (term c (x ij.1 ij.2)))
                 (pairs armazens centros).

(** [lpSum(x[(i,j)] for j in centros) <= oferta[i]]. *)
Definition restricao_oferta (rotulo : bool) (i : string)
    : option LpConstraint :=
  o ← oferta !! i;
  Some (MkLpConstraint (lpSum (map (fun j => var (x i j)) centros))
          LpConstraintLE o
          (if rotulo then Some ("Oferta_" +:+ i) else None)).

(** [lpSum(x[(i,j)] for i in armazens) == procura[j]]. *)
Definition restricao_procura (rotulo : bool) (j : string)
    : option LpConstraint :=
  p ← procura !! j;
  Some (MkLpConstraint (lpSum (map (fun i => var (x i j)) armazens))
          LpConstraintEQ p
          (if rotulo then Some ("Procura_" +:+ j) else None)).

(** The formulation both the base model and the sensitivity models
    follow: objective, one supply row per warehouse, one demand row
    per centre.  [rotulo] tells whether the rows are labelled (they
    are in the base model only). *)
Definition formulate (nome : string) (rotulo : bool)
    (custo : gmap (string * string) Q) : option LpProblem :=
  obj ← custo_total custo;
  ofe ← mapM (restricao_oferta rotulo) armazens;
  pro ← mapM (restricao_procura rotulo) centros;
  Some (add_constraints
          (add_constraints
             (set_objective (LpProblem_new nome LpMinimize) obj) ofe)
          pro).

(** What one scenario of a sweep over the cost of [rota] reports: the
    optimal total cost of the model with that cost set to [c]. *)
Definition sweep_result (nome : string) (rotulo : bool)
    (custo : gmap (string * string) Q) (rota : string * string)
    (c v : Q) : Prop :=
  exists m a, formulate nome rotulo (<[rota := c]> custo) = Some m /\
              optimal m a /\ v == value (objective m) a.

(** The sum over all routes of quantity times unit cost. *)
Definition custo_das_rotas (custo : gmap (string * string) Q)
    (a : Assignment) : Q :=
  Qsum (fun ij => a (name (x ij.1 ij.2)) * default 0 (custo !! ij))
       (pairs armazens centros).

End Formulation.

Definition armazens : list string := ["A1"; "A2"].
Definition centros : list string := ["CD1"; "CD2"; "CD3"].
Definition oferta : gmap string Q :=
  list_to_map [("A1", 300); ("A2", 500)].
Definition procura : gmap string Q :=
  list_to_map [("CD1", 200); ("CD2", 250); ("CD3", 250)].
Definition custo_inicial : gmap (string * string) Q :=
  list_to_map
    [(("A1", "CD1"), 2.0); (("A1", "CD2"), 3.5); (("A1", "CD3"), 3.0);
     (("A2", "CD1"), 2.5); (("A2", "CD2"), 2.0); (("A2", "CD3"), 4.0)].

(** A supply table that falls short of the demand of the script (600
    boxes against 700). *)
Definition oferta_curta : gmap string Q :=
  list_to_map [("A1", 300); ("A2", 300)].

(** The base model (lines 19-34). *)
Definition model : option LpProblem :=
  formulate armazens centros oferta procura "Transporte_Adega" true
    custo_inicial.

(** The model of one sensitivity scenario (lines 83-95), from the cost
    table the scenario uses. *)
Definition model_sens (custo_atual : gmap (string * string) Q)
    : option LpProblem :=
  formulate armazens centros oferta procura "Transporte_Sens" false
    custo_atual.

(** The rows of Tabela 1 (lines 44-50): warehouse, centre, quantity, unit
    cost, quantity times unit cost, for the routes with a positive
    quantity. *)
Definition Row : Type := string * string * Q * Q * Q.

Definition row_total (r : Row) : Q := snd r.

Definition solucao_row (custo : gmap (string * string) Q) (a : Assignment)
    (ij : string * string) : option (list Row) :=
  let q := a (name (x ij.1 ij.2)) in
  if Qlt_le_dec 0 q then
    custo_unit ← custo !! ij;
    Some [(ij.1, ij.2, q, custo_unit, q * custo_unit)]
  else Some [].

Definition solucao (a : Assignment) : option (list Row) :=
  @concat Row <$> mapM (solucao_row custo_inicial a) (pairs armazens centros).

Definition custos_variados : list Q := linspace 3.0 8.0 11.

(** One iteration of the sensitivity loop (lines 81-98): copy the cost
    table, overwrite the cost of A2->CD3 in the copy, build the model from
    the copy, solve it, append the value of its objective. *)
Definition sens_body (solve : LpProblem -> Solution) (custo_ref : nat)
    (cvar : Q) (st : Store) : option Store :=
  '(custo_atual, h1) ← dict_copy custo_ref (heap st);
  let h2 := dict_setitem custo_atual ("A2", "CD3") cvar h1 in
  tabela ← h2 !! custo_atual;
  m ← model_sens tabela;
  Some (MkStore h2 (solved st ++ [m])%list
          (results st ++ [value (objective m) (varValue (solve m))])%list).

(** The state the loop starts from: [custo_inicial] is the only
    dictionary, nothing is solved, the result list is empty. *)
Definition inicio : Store := MkStore {[ 0%nat := custo_inicial ]} [] [].

Definition sens_loop (solve : LpProblem -> Solution) : option Store :=
  for_each (sens_body solve 0%nat) custos_variados inicio.

Definition custo_total_lista (solve : LpProblem -> Solution)
    : option (list Q) :=
  results <$> sens_loop solve.

(** Two shipping plans: [plano_A] serves CD1 from A1 first, [plano_B]
    serves CD3 from A1 first. *)
Definition plano_A : Assignment :=
  valores [("x_A1_CD1", 200); ("x_A1_CD3", 100);
           ("x_A2_CD2", 250); ("x_A2_CD3", 150)].
Definition plano_B : Assignment :=
  valores [("x_A1_CD1", 50); ("x_A1_CD3", 250);
           ("x_A2_CD1", 150); ("x_A2_CD2", 250)].

(** A solver for the models of this script's sweep: it reads the cost of
    A2->CD3 off the objective and answers with the plan that is optimal
    for it. *)
Definition solve_ref (m : LpProblem) : Solution :=
  MkSolution LpStatusOptimal
    (if Qle_bool 3.5 (coefficient "x_A2_CD3" (objective m))
     then plano_B else plano_A).

End Transporte.

(** ** afetacao.py *)

Module Afetacao.
Import Pulp Script.

Definition funcionarios : list string := ["F1"; "F2"; "F3"; "F4"].
Definition tarefas : list string :=
  ["Lavagem"; "Transporte"; "Engarrafamento"; "Controlo"].
Definition custo_inicial : gmap (string * string) Q :=
  list_to_map
    [(("F1", "Lavagem"), 25); (("F1", "Transporte"), 40);
     (("F1", "Engarrafamento"), 30); (("F1", "Controlo"), 35);
     (("F2", "Lavagem"), 35); (("F2", "Transporte"), 30);
     (("F2", "Engarrafamento"), 25); (("F2", "Controlo"), 45);
     (("F3", "Lavagem"), 20); (("F3", "Transporte"), 35);
     (("F3", "Engarrafamento"), 40); (("F3", "Controlo"), 30);
     (("F4", "Lavagem"), 30); (("F4", "Transporte"), 25);
     (("F4", "Engarrafamento"), 35); (("F4", "Controlo"), 20)].

(** [x[(i,j)] = LpVariable(f"x_{i}_{j}", ..., cat=LpBinary)].  The base
    model passes [lowBound=0, upBound=1]; the sensitivity models pass no
    bounds. *)
Definition x (lo up : option Q) (i j : string) : LpVariable :=
  LpVariable_new ("x_" +:+ i +:+ "_" +:+ j) lo up LpBinary.

(** Objective, one row per worker, one row per task (lines 18-33 and
    89-95); [rotulo] tells whether the rows are labelled. *)
Definition formulate (nome : string) (rotulo : bool) (lo up : option Q)
    (custo : gmap (string * string) Q) : option LpProblem :=
  obj ← lpSum <$> mapM (fun ij => c ← custo !! ij;
                                  Some (term c (x lo up ij.1 ij.2)))
                       (pairs funcionarios tarefas);
  let res_func := map (fun i =>
        MkLpConstraint (lpSum (map (fun j => var (x lo up i j)) tarefas))
          LpConstraintEQ 1
          (if rotulo then Some ("Res_func_" +:+ i) else None)) funcionarios in
  let res_tarefa := map (fun j =>
        MkLpConstraint (lpSum (map (fun i => var (x lo up i j)) funcionarios))
          LpConstraintEQ 1
          (if rotulo then Some ("Res_tarefa_" +:+ j) else None)) tarefas in
  Some (add_constraints
          (add_constraints
             (set_objective (LpProblem_new nome LpMinimize) obj) res_func)
          res_tarefa).

Definition model : option LpProblem :=
  formulate "Afetacao" true (Some 0) (Some 1) custo_inicial.

Definition m_sens (custo_mod : gmap (string * string) Q)
    : option LpProblem :=
  formulate "Afetacao_Sens" false None None custo_mod.

(** The extraction loop (lines 42-47).  [alocacao] maps a task to the
    worker and the cost recorded for it; [impresso] is the list of lines
    the loop prints, one per pair it keeps. *)
Record Extracao := MkExtracao {
  alocacao : list (string * (string * Q));
  impresso : list (string * string * Q)
}.

Definition extrair_body (a : Assignment) (ij : string * string)
    (st : Extracao) : option Extracao :=
  if Qeq_bool (a (name (x (Some 0) (Some 1) ij.1 ij.2))) 1 then
    c ← custo_inicial !! ij;
    Some (MkExtracao (assoc_set ij.2 (ij.1, c) (alocacao st))
            (impresso st ++ [(ij.2, ij.1, c)])%list)
  else Some st.

Definition extrair (a : Assignment) : option Extracao :=
  for_each (extrair_body a) (pairs funcionarios tarefas) (MkExtracao [] []).

(** [tarefas_ord], [custos_tarefas] and [labels_func] (lines 55-57). *)
Definition tarefas_ord (e : Extracao) : list string :=
  map fst (alocacao e).
Definition custos_tarefas (e : Extracao) : list Q :=
  map (fun t => snd (snd t)) (alocacao e).
Definition labels_func (e : Extracao) : list string :=
  map (fun t => fst (snd t)) (alocacao e).

Definition cvals : list Q := linspace 20 50 7.

(** One iteration of the sensitivity loop (lines 83-97). *)
Definition sens_body (solve : LpProblem -> Solution) (custo_ref : nat)
    (cvar : Q) (st : Store) : option Store :=
  '(custo_mod, h1) ← dict_copy custo_ref (heap st);
  let h2 := dict_setitem custo_mod ("F4", "Controlo") cvar h1 in
  tabela ← h2 !! custo_mod;
  m ← m_sens tabela;
  Some (MkStore h2 (solved st ++ [m])%list
          (results st ++ [value (objective m) (varValue (solve m))])%list).

Definition inicio : Store := MkStore {[ 0%nat := custo_inicial ]} [] [].

Definition sens_loop (solve : LpProblem -> Solution) : option Store :=
  for_each (sens_body solve 0%nat) cvals inicio.

Definition ctotais (solve : LpProblem -> Solution) : option (list Q) :=
  results <$> sens_loop solve.

(** Two allocations: [otimo] gives Engarrafamento to F1, Transporte to F2,
    Lavagem to F3 and Controlo to F4; [alternativa] gives Lavagem to F1,
    Engarrafamento to F2, Controlo to F3 and Transporte to F4. *)
Definition otimo : Assignment :=
  valores [("x_F1_Engarrafamento", 1); ("x_F2_Transporte", 1);
           ("x_F3_Lavagem", 1); ("x_F4_Controlo", 1)].
Definition alternativa : Assignment :=
  valores [("x_F1_Lavagem", 1); ("x_F2_Engarrafamento", 1);
           ("x_F3_Controlo", 1); ("x_F4_Transporte", 1)].

End Afetacao.

(** ** metas.py *)

Module Metas.
Import Pulp Script.

Definition armazens : list string := ["A1"; "A2"].
Definition centros : list string := ["CD1"; "CD2"; "CD3"].
Definition oferta : gmap string Q := list_to_map [("A1", 700); ("A2", 700)].
Definition procura : gmap string Q :=
  list_to_map [("CD1", 200); ("CD2", 250); ("CD3", 250)].
Definition custo : gmap (string * string) Q :=
  list_to_map
    [(("A1", "CD1"), 2.0); (("A1", "CD2"), 3.0); (("A1", "CD3"), 2.5);
     (("A2", "CD1"), 5.0); (("A2", "CD2"), 5.5); (("A2", "CD3"), 6.0)].

(** [x[(i,j)] = LpVariable(f"x_{i}_{j}", lowBound=0)] and the four
    deviation variables. *)
Definition x (i j : string) : LpVariable :=
  LpVariable_new ("x_" +:+ i +:+ "_" +:+ j) (Some 0) None LpContinuous.
Definition d1_minus : LpVariable :=
  LpVariable_new "d1_minus" (Some 0) None LpContinuous.
Definition d1_plus : LpVariable :=
  LpVariable_new "d1_plus" (Some 0) None LpContinuous.
Definition d2_minus : LpVariable :=
  LpVariable_new "d2_minus" (Some 0) None LpContinuous.
Definition d2_plus : LpVariable :=
  LpVariable_new "d2_plus" (Some 0) None LpContinuous.

(** [cost_expr] (line 39). *)
Definition cost_expr (tabela : gmap (string * string) Q)
    : option LpAffineExpression :=
  lpSum <$> mapM (fun ij => c ← tabela !! ij; Some (term c (x ij.1 ij.2)))
                 (pairs armazens centros).

(** [lpSum(x[("A2",j)] for j in centros)], the quantity shipped from A2. *)
Definition exp_A2 : LpAffineExpression :=
  lpSum (map (fun j => var (x "A2" j)) centros).

(** The supply and demand rows (lines 48-51 and 108-111). *)
Definition restricoes (rotulo : bool) : option (list LpConstraint) :=
  o1 ← oferta !! "A1";
  o2 ← oferta !! "A2";
  pro ← mapM (fun c => p ← procura !! c;
                Some (MkLpConstraint
                        (lpSum (map (fun i => var (x i c)) armazens))
                        LpConstraintEQ p
                        (if rotulo then Some ("Proc_" +:+ c) else None)))
             centros;
  Some ([MkLpConstraint (lpSum (map (fun j => var (x "A1" j)) centros))
           LpConstraintLE o1 (if rotulo then Some "CapA1" else None);
         MkLpConstraint (lpSum (map (fun j => var (x "A2" j)) centros))
           LpConstraintLE o2 (if rotulo then Some "CapA2" else None)]
        ++ pro)%list.

(** The goal programme (lines 26-56 and 95-114): the two goal equations,
    the supply and demand rows, and the weighted deviations as the
    objective. *)
Definition formulate (nome : string) (rotulo : bool) (w1 w2 : Q)
    : option LpProblem :=
  custo_expr ← cost_expr custo;
  res ← restricoes rotulo;
  let meta_custo :=
    MkLpConstraint
      (expr_sub (expr_add custo_expr (var d1_minus)) (var d1_plus))
      LpConstraintEQ 2500 (if rotulo then Some "MetaCusto" else None) in
  let meta_A2 :=
    MkLpConstraint (expr_sub (expr_add exp_A2 (var d2_minus)) (var d2_plus))
      LpConstraintEQ 400 (if rotulo then Some "MetaA2" else None) in
  Some (set_objective
          (add_constraints
             (add_constraints (LpProblem_new nome LpMinimize)
                [meta_custo; meta_A2])
             res)
          (expr_add (expr_scale w1 (var d1_plus))
             (expr_scale w2 (expr_add (var d2_minus) (var d2_plus))))).

Definition model : option LpProblem := formulate "ProgMetas" true 1 1.

Definition m2 (w2test : Q) : option LpProblem :=
  formulate "ProgMetas_sens" false 1 w2test.

(** The transportation part alone: the cost as the objective, under the
    supply and demand rows, with neither goal. *)
Definition sem_metas : option LpProblem :=
  custo_expr ← cost_expr custo;
  res ← restricoes false;
  Some (add_constraints
          (set_objective (LpProblem_new "SemMetas" LpMinimize) custo_expr)
          res).

Definition w2_values : list Q := linspace 0 5 6.

(** One iteration of the weight loop (lines 94-118): the model is built
    from the weight alone and the quantity shipped from A2 is recorded. *)
Definition sens_body (solve : LpProblem -> Solution) (w2test : Q)
    (st : Store) : option Store :=
  m ← m2 w2test;
  Some (MkStore (heap st) (solved st ++ [m])%list
          (results st ++ [value exp_A2 (varValue (solve m))])%list).

Definition inicio : Store := MkStore {[ 0%nat := custo ]} [] [].

Definition sens_loop (solve : LpProblem -> Solution) : option Store :=
  for_each (sens_body solve) w2_values inicio.

Definition expA2_list (solve : LpProblem -> Solution) : option (list Q) :=
  results <$> sens_loop solve.

(** Two plans: [plano_barato] ships everything from A1; [plano_meta]
    ships from A2 as much as the cost target of 2500 allows. *)
Definition plano_barato : Assignment :=
  valores [("x_A1_CD1", 200); ("x_A1_CD2", 250); ("x_A1_CD3", 250);
           ("d1_minus", 725); ("d2_minus", 400)].
Definition plano_meta : Assignment :=
  valores [("x_A1_CD1", 500 # 3); ("x_A1_CD3", 250);
           ("x_A2_CD1", 100 # 3); ("x_A2_CD2", 250);
           ("d2_minus", 350 # 3)].

(** The plan that meets the A2 target of 400 boxes exactly. *)
Definition plano_A2 : Assignment :=
  valores [("x_A1_CD1", 50); ("x_A1_CD3", 250);
           ("x_A2_CD1", 150); ("x_A2_CD2", 250);
           ("d1_plus", 350)].

End Metas.

(** * Properties *)

(** ** The modelling layer and the solve contract *)

Module PulpFacts.
Import Pulp Script.

Lemma constraints_add_constraints (m : LpProblem) (cs : list LpConstraint) :
  constraints (add_constraints m cs) = (constraints m ++ cs)%list.
Proof.
  unfold add_constraints. revert m.
  induction cs as [|c cs IH]; intros m; simpl.
  - now rewrite app_nil_r.
  - rewrite IH. simpl. now rewrite <- app_assoc.
Qed.

Lemma objective_add_constraints (m : LpProblem) (cs : list LpConstraint) :
  objective (add_constraints m cs) = objective m.
Proof.
  unfold add_constraints. revert m.
  induction cs as [|c cs IH]; intros m; simpl; [reflexivity|].
  now rewrite IH.
Qed.

Lemma sense_add_constraints (m : LpProblem) (cs : list LpConstraint) :
  sense (add_constraints m cs) = sense m.
Proof.
  unfold add_constraints. revert m.
  induction cs as [|c cs IH]; intros m; simpl; [reflexivity|].
  now rewrite IH.
Qed.

Lemma value_app (e1 e2 : LpAffineExpression) (a : Assignment) :
  value (e1 ++ e2)%list a == value e1 a + value e2 a.
Proof.
  induction e1 as [|[c v] e1 IH]; simpl.
  - lra.
  - rewrite IH. lra.
Qed.

Lemma value_scale (k : Q) (e : LpAffineExpression) (a : Assignment) :
  value (expr_scale k e) a == k * value e a.
Proof.
  induction e as [|[c v] e IH]; simpl.
  - lra.
  - rewrite IH. lra.
Qed.

(** The value of [lpSum(x_k for k in l)] is the sum of the values. *)
Lemma value_lpSum_vars {A : Type} (f : A -> LpVariable) (l : list A)
    (a : Assignment) :
  value (lpSum (map (fun k => var (f k)) l)) a
  == Qsum (fun k => a (name (f k))) l.
Proof.
  induction l as [|k l IH]; simpl.
  - reflexivity.
  - unfold lpSum in IH. rewrite IH. lra.
Qed.

Lemma is_integerb_spec (q : Q) : is_integerb q = true <-> is_integer q.
Proof.
  unfold is_integerb, is_integer. rewrite Pos.eqb_eq. split.
  - intros H. exists (Qnum (Qred q)).
    rewrite <- (Qred_correct q) at 1.
    destruct (Qred q) as [n d]. simpl in *. subst d. reflexivity.
  - intros [z Hz]. rewrite (Qred_complete _ _ Hz).
    rewrite Qred_identity; [reflexivity|]. simpl. apply Z.gcd_1_r.
Qed.

Lemma in_domainb_spec (a : Assignment) (v : LpVariable) :
  in_domainb a v = true <-> in_domain a v.
Proof.
  unfold in_domainb, in_domain, above, below.
  rewrite !andb_true_iff.
  destruct (lowBound v), (upBound v), (cat v);
    rewrite ?Qle_bool_iff, ?is_integerb_spec; intuition.
Qed.

Lemma satisfiesb_spec (a : Assignment) (c : LpConstraint) :
  satisfiesb a c = true <-> satisfies a c.
Proof.
  unfold satisfiesb, satisfies.
  destruct (csense c); rewrite ?Qle_bool_iff, ?Qeq_bool_iff; reflexivity.
Qed.

(** The boolean test decides feasibility. *)
Lemma feasibleb_spec (m : LpProblem) (a : Assignment) :
  feasibleb m a = true <-> feasible m a.
Proof.
  unfold feasibleb, feasible.
  rewrite andb_true_iff, !forallb_forall, !List.Forall_forall.
  split; intros [H1 H2]; split; intros y Hy.
  - apply satisfiesb_spec; auto.
  - apply in_domainb_spec; auto.
  - apply satisfiesb_spec; auto.
  - apply in_domainb_spec; auto.
Qed.

(** A [Forall] over a list written out in full, as a conjunction. *)
Lemma Forall_fold {A : Type} (P : A -> Prop) (l : list A) :
  Forall P l <-> fold_right (fun x acc => P x /\ acc) True l.
Proof.
  induction l as [|x l IH]; simpl.
  - split; auto.
  - rewrite Forall_cons, IH. reflexivity.
Qed.

End PulpFacts.

(** ** Proof steps for the concrete models *)

(** Turns [feasible m a], for a model [m] known in full, into the list of
    its rows and bounds as arithmetic facts. *)
Ltac split_feasible H :=
  let Hc := fresh "Hc" in
  let Hv := fresh "Hv" in
  destruct H as [Hc Hv];
  apply PulpFacts.Forall_fold in Hc; apply PulpFacts.Forall_fold in Hv;
  unfold Pulp.variables in Hv; cbn in Hc, Hv;
  unfold Pulp.satisfies, Pulp.in_domain, Pulp.above, Pulp.below in Hc, Hv;
  cbn in Hc, Hv.

(** Feasibility of a plan written out in full. *)
Ltac feasible_by_test :=
  apply PulpFacts.feasibleb_spec; vm_compute; reflexivity.

(** A model built from concrete data, in full. *)
Ltac model_known E := vm_compute in E; injection E as <-.

(** The values of a plan written out in full. *)
Ltac eval_plan p :=
  repeat match goal with
  | |- context [p ?n] =>
      let v := eval vm_compute in (p n) in change (p n) with v
  end.

(** Variable names and dictionary reads at concrete keys. *)
Ltac eval_names :=
  repeat match goal with
  | |- context [String.append ?s ?t] =>
      let v := eval vm_compute in (String.append s t) in
      change (String.append s t) with v
  end.

Ltac eval_lookups d :=
  repeat match goal with
  | |- context [d !! ?k] =>
      let v := eval vm_compute in (d !! k) in
      let H := fresh in
      assert (H : d !! k = v) by (vm_compute; reflexivity);
      rewrite H; clear H
  end.

Module SolveFacts.
Import Pulp Script PulpFacts.

Lemma optimal_feasible (m : LpProblem) (a : Assignment) :
  optimal m a -> feasible m a.
Proof. now intros [H _]. Qed.

(** An optimal assignment rules the other two outcomes out. *)
Lemma solve_spec_optimal_status (m : LpProblem) (a : Assignment)
    (s : Solution) :
  optimal m a -> solve_spec m s -> status s = LpStatusOptimal.
Proof.
  intros [Hf Hbest] Hs. destruct Hs as [b Hno | b _ Hunb | b _]; simpl.
  - destruct (Hno a Hf).
  - exfalso. destruct (Hunb (value (objective m) a)) as [c [Hc Hlt]].
    specialize (Hbest c Hc). unfold no_worse in Hbest.
    destruct (sense m); lra.
  - reflexivity.
Qed.

Lemma solve_spec_optimal_inv (m : LpProblem) (s : Solution) :
  solve_spec m s -> status s = LpStatusOptimal -> optimal m (varValue s).
Proof. intros Hs E. destruct Hs; simpl in *; congruence. Qed.

Lemma optimal_values_agree (m : LpProblem) (a b : Assignment) :
  optimal m a -> optimal m b ->
  value (objective m) a == value (objective m) b.
Proof.
  intros [Ha Hab] [Hb Hba].
  specialize (Hab b Hb). specialize (Hba a Ha).
  unfold no_worse in *. destruct (sense m); lra.
Qed.

(** C7: solving is deterministic in what it reports.  Two results the solve
    contract allows for the same model have the same status and the same
    objective value. *)
Theorem solve_deterministic (m : LpProblem) (s1 s2 : Solution) :
  solve_spec m s1 -> solve_spec m s2 ->
  status s1 = status s2 /\ objectiveValue m s1 = objectiveValue m s2.
Proof.
  intros H1 H2. unfold objectiveValue.
  destruct H1 as [a1 Hno1 | a1 Hex1 Hunb1 | a1 Hopt1].
  - destruct H2 as [a2 _ | a2 [b Hb] _ | a2 [Hf _]]; simpl.
    + split; reflexivity.
    + destruct (Hno1 b Hb).
    + destruct (Hno1 a2 Hf).
  - pose proof (solve_unbounded m a1 Hex1 Hunb1) as Hs1.
    destruct H2 as [a2 Hno2 | a2 _ _ | a2 Hopt2]; simpl.
    + destruct Hex1 as [b Hb]. destruct (Hno2 b Hb).
    + split; reflexivity.
    + pose proof (solve_spec_optimal_status m a2 _ Hopt2 Hs1) as E.
      simpl in E. discriminate E.
  - pose proof (solve_spec_optimal_status m a1 _ Hopt1 H2) as E.
    pose proof (solve_spec_optimal_inv m _ H2 E) as Hopt2.
    simpl. rewrite E. split; [reflexivity|].
    f_equal. apply Qred_complete. now apply optimal_values_agree.
Qed.

Lemma objectiveValue_Some (m : LpProblem) (s : Solution) (v : Q) :
  objectiveValue m s = Some v ->
  status s = LpStatusOptimal /\ v == value (objective m) (varValue s).
Proof.
  unfold objectiveValue. destruct (status s); try discriminate.
  intros H. injection H as <-. split; [reflexivity | apply Qred_correct].
Qed.

End SolveFacts.

(** ** Sums *)

Module SumFacts.
Import Pulp Script.

Lemma Qsum_ext {A : Type} (f g : A -> Q) (l : list A) :
  (forall k, In k l -> f k == g k) -> Qsum f l == Qsum g l.
Proof.
  induction l as [|k l IH]; intros H; simpl.
  - reflexivity.
  - rewrite (H k (or_introl eq_refl)), IH; [reflexivity|].
    intros k' Hk'. apply H. now right.
Qed.

Lemma Qsum_zero {A : Type} (l : list A) : Qsum (fun _ => 0) l == 0.
Proof. induction l as [|k l IH]; simpl; [reflexivity|]. rewrite IH. lra. Qed.

Lemma Qsum_plus {A : Type} (f g : A -> Q) (l : list A) :
  Qsum (fun k => f k + g k) l == Qsum f l + Qsum g l.
Proof.
  induction l as [|k l IH]; simpl; [lra|]. rewrite IH. lra.
Qed.

Lemma Qsum_app {A : Type} (f : A -> Q) (l1 l2 : list A) :
  Qsum f (l1 ++ l2)%list == Qsum f l1 + Qsum f l2.
Proof.
  induction l1 as [|k l1 IH]; simpl; [lra|]. rewrite IH. lra.
Qed.

(** The two orders of a double sum agree. *)
Lemma Qsum_swap {A B : Type} (g : A -> B -> Q) (l1 : list A) (l2 : list B) :
  Qsum (fun i => Qsum (fun j => g i j) l2) l1
  == Qsum (fun j => Qsum (fun i => g i j) l1) l2.
Proof.
  induction l1 as [|i l1 IH]; simpl.
  - now rewrite Qsum_zero.
  - rewrite Qsum_plus, IH. reflexivity.
Qed.

Lemma Qsum_pairs (g : string -> string -> Q) (l1 l2 : list string) :
  Qsum (fun ij => g ij.1 ij.2) (pairs l1 l2)
  == Qsum (fun i => Qsum (fun j => g i j) l2) l1.
Proof.
  unfold pairs. induction l1 as [|i l1 IH]; simpl; [reflexivity|].
  rewrite Qsum_app, IH.
  assert (E : Qsum (fun ij => g ij.1 ij.2) (map (fun j => (i, j)) l2)
              == Qsum (fun j => g i j) l2).
  { clear IH. induction l2 as [|j l2 IH2]; simpl; [reflexivity|].
    rewrite IH2. reflexivity. }
  rewrite E. reflexivity.
Qed.

(** A monotone function keeps a sorted list sorted. *)
Lemma StronglySorted_map_mono (f : Q -> Q) (l : list Q) :
  (forall c c', In c l -> In c' l -> c <= c' -> f c <= f c') ->
  StronglySorted Qle l -> StronglySorted Qle (map f l).
Proof.
  intros Hf Hs. induction Hs as [|c l Hs IH Hall]; simpl.
  - constructor.
  - constructor.
    + apply IH. intros c1 c2 H1 H2. apply Hf; now right.
    + rewrite List.Forall_forall in Hall |- *.
      intros v Hv. apply in_map_iff in Hv as [c' [<- Hc']].
      apply Hf; [now left | now right | now apply Hall].
Qed.

(** Results that are ordered like the inputs they come from form a sorted
    list when the inputs do. *)
Lemma StronglySorted_Forall2 (R : Q -> Q -> Prop) (cs vs : list Q) :
  (forall c c' v v', c <= c' -> R c v -> R c' v' -> v <= v') ->
  StronglySorted Qle cs -> Forall2 R cs vs -> StronglySorted Qle vs.
Proof.
  intros HR Hs H. induction H as [|c v cs vs Hcv H IH].
  - constructor.
  - apply StronglySorted_inv in Hs as [Hs Hall]. constructor.
    + now apply IH.
    + clear IH Hs. induction H as [|c' v' cs vs Hcv' H IH]; constructor.
      * apply Forall_cons in Hall as [Hcc' _]. now apply (HR c c').
      * apply IH. now apply Forall_cons in Hall as [_ Hall].
Qed.

Lemma sortedb_spec (l : list Q) :
  sortedb l = true -> StronglySorted Qle l.
Proof.
  induction l as [|c l IH]; simpl; intros H.
  - constructor.
  - apply andb_true_iff in H as [H1 H2]. constructor; [now apply IH|].
    rewrite forallb_forall in H1. apply List.Forall_forall.
    intros v Hv. apply Qle_bool_iff. now apply H1.
Qed.

(** Two lists related element by element: each left element is in its
    list. *)
Lemma Forall2_and_In_l {A B : Type} (R : A -> B -> Prop) (l : list A)
    (k : list B) :
  Forall2 R l k -> Forall2 (fun x y => In x l /\ R x y) l k.
Proof.
  intros H. induction H as [|x y l k Hxy _ IH].
  - constructor.
  - constructor; [split; [now left | exact Hxy]|].
    eapply Forall2_impl; [exact IH|]. intros x' y' [Hin HR].
    split; [now right | exact HR].
Qed.

End SumFacts.

(** ** transporte.py: every transportation model *)

Module TransporteGeral.
Import Pulp Script PulpFacts SolveFacts SumFacts Transporte.

Section Geral.
Variables armazens centros : list string.
Variables oferta procura : gmap string Q.

Local Abbreviation formulate := (formulate armazens centros oferta procura).
Local Abbreviation custo_total := (custo_total armazens centros).
Local Abbreviation restricao_oferta := (restricao_oferta centros oferta).
Local Abbreviation restricao_procura := (restricao_procura armazens procura).

(** What a successful [formulate] built. *)
Lemma formulate_Some (nome : string) (rotulo : bool)
    (custo : gmap (string * string) Q) (m : LpProblem) :
  formulate nome rotulo custo = Some m ->
  exists obj ofe pro,
    custo_total custo = Some obj /\
    mapM (restricao_oferta rotulo) armazens = Some ofe /\
    mapM (restricao_procura rotulo) centros = Some pro /\
    objective m = obj /\ constraints m = (ofe ++ pro)%list /\
    sense m = LpMinimize.
Proof.
  unfold Transporte.formulate. intros H.
  destruct (custo_total custo) as [obj|]; [|discriminate H].
  destruct (mapM (restricao_oferta rotulo) armazens) as [ofe|];
    [|discriminate H].
  destruct (mapM (restricao_procura rotulo) centros) as [pro|];
    [|discriminate H].
  simpl in H. injection H as <-. exists obj, ofe, pro.
  rewrite !constraints_add_constraints, !objective_add_constraints,
    !sense_add_constraints. simpl. auto 10.
Qed.

(** The supply rows bound what leaves the warehouses by the total supply. *)
Lemma oferta_rows (rotulo : bool) (a : Assignment) (l : list string)
    (ofe : list LpConstraint) :
  mapM (restricao_oferta rotulo) l = Some ofe ->
  Forall (satisfies a) ofe ->
  Qsum (fun i => Qsum (fun j => a (name (x i j))) centros) l
  <= total oferta l.
Proof.
  rewrite mapM_Some. intros H. unfold total.
  induction H as [|i c l ofe Hi _ IH]; intros Hsat; cbn [Qsum].
  - lra.
  - apply Forall_cons in Hsat as [Hc Hrest]. specialize (IH Hrest).
    unfold Transporte.restricao_oferta in Hi.
    destruct (oferta !! i) as [o|]; [|discriminate Hi].
    simpl in Hi. injection Hi as <-.
    unfold satisfies in Hc. simpl in Hc.
    rewrite value_lpSum_vars in Hc. cbn [Qsum from_option id]. lra.
Qed.

(** The demand rows fix what reaches the centres to the total demand. *)
Lemma procura_rows (rotulo : bool) (a : Assignment) (l : list string)
    (pro : list LpConstraint) :
  mapM (restricao_procura rotulo) l = Some pro ->
  Forall (satisfies a) pro ->
  Qsum (fun j => Qsum (fun i => a (name (x i j))) armazens) l
  == total procura l.
Proof.
  rewrite mapM_Some. intros H. unfold total.
  induction H as [|j c l pro Hj _ IH]; intros Hsat; cbn [Qsum].
  - reflexivity.
  - apply Forall_cons in Hsat as [Hc Hrest]. specialize (IH Hrest).
    unfold Transporte.restricao_procura in Hj.
    destruct (procura !! j) as [p|]; [|discriminate Hj].
    simpl in Hj. injection Hj as <-.
    unfold satisfies in Hc. simpl in Hc.
    rewrite value_lpSum_vars in Hc. cbn [Qsum from_option id]. lra.
Qed.

(** A feasible plan ships the whole demand and no more than the supply. *)
Lemma feasible_totals (nome : string) (rotulo : bool)
    (custo : gmap (string * string) Q) (m : LpProblem) (a : Assignment) :
  formulate nome rotulo custo = Some m -> feasible m a ->
  total procura centros <= total oferta armazens.
Proof.
  intros Hm [Hc _].
  destruct (formulate_Some _ _ _ _ Hm)
    as (obj & ofe & pro & _ & Hofe & Hpro & _ & Ecs & _).
  rewrite Ecs in Hc. apply Forall_app in Hc as [Ho Hp].
  pose proof (oferta_rows rotulo a _ _ Hofe Ho) as H1.
  pose proof (procura_rows rotulo a _ _ Hpro Hp) as H2.
  pose proof (Qsum_swap (fun i j => a (name (x i j))) armazens centros) as H3.
  cbv beta in H3. lra.
Qed.

Lemma mais_procura_que_oferta (nome : string) (rotulo : bool)
    (custo : gmap (string * string) Q) (m : LpProblem) (a : Assignment) :
  formulate nome rotulo custo = Some m ->
  total oferta armazens < total procura centros ->
  feasibleb m a = false.
Proof.
  intros Hm Hlt. destruct (feasibleb m a) eqn:E; [|reflexivity].
  apply feasibleb_spec in E.
  pose proof (feasible_totals _ _ _ _ _ Hm E). lra.
Qed.

(** Raising the cost of one route: the same variables, and no smaller an
    objective at any plan within the variables' bounds. *)
Lemma custo_total_mono (custo : gmap (string * string) Q)
    (rota : string * string) (c c' : Q) (a : Assignment)
    (l : list (string * string)) (ts ts' : list LpAffineExpression) :
  c <= c' ->
  mapM (fun ij => c0 ← <[rota := c]> custo !! ij;
                  Some (term c0 (x ij.1 ij.2))) l = Some ts ->
  mapM (fun ij => c0 ← <[rota := c']> custo !! ij;
                  Some (term c0 (x ij.1 ij.2))) l = Some ts' ->
  map snd (lpSum ts) = map snd (lpSum ts') /\
  (Forall (in_domain a) (map snd (lpSum ts')) ->
   value (lpSum ts) a <= value (lpSum ts') a).
Proof.
  intros Hc. rewrite !mapM_Some. intros H. revert ts'.
  induction H as [|ij t l ts Ht _ IH]; intros ts' H'.
  - apply Forall2_nil_inv_l in H'. subst ts'. simpl. split; [reflexivity|].
    intros _. lra.
  - apply Forall2_cons_inv_l in H' as (t' & ts1 & Ht' & H' & ->).
    destruct (IH _ H') as [IH1 IH2]. clear IH.
    unfold lpSum in *. cbn [concat].
    rewrite lookup_insert in Ht, Ht'.
    destruct (decide (rota = ij)) as [->|Hne].
    + simpl in Ht, Ht'. injection Ht as <-. injection Ht' as <-.
      cbn [term app map snd value]. split; [now rewrite IH1|].
      intros Hdom. apply Forall_cons in Hdom as [[Hlo _] Hrest].
      specialize (IH2 Hrest). cbn in Hlo.
      assert (0 <= (c' - c) * a (name (x ij.1 ij.2)))
        by (apply Qmult_le_0_compat; [lra | exact Hlo]).
      lra.
    + destruct (custo !! ij) as [c0|]; [|discriminate Ht].
      simpl in Ht, Ht'. injection Ht as <-. injection Ht' as <-.
      cbn [term app map snd value]. split; [now rewrite IH1|].
      intros Hdom. apply Forall_cons in Hdom as [_ Hrest].
      specialize (IH2 Hrest). lra.
Qed.

(** The optimum of the cheaper model is no larger. *)
Lemma otimo_mono (nome : string) (rotulo : bool)
    (custo : gmap (string * string) Q) (rota : string * string)
    (c c' : Q) (m m' : LpProblem) (a a' : Assignment) :
  c <= c' ->
  formulate nome rotulo (<[rota := c]> custo) = Some m ->
  formulate nome rotulo (<[rota := c']> custo) = Some m' ->
  optimal m a -> optimal m' a' ->
  value (objective m) a <= value (objective m') a'.
Proof.
  intros Hc Hm Hm' [_ Hbest] [[Hcs' Hvs'] _].
  destruct (formulate_Some _ _ _ _ Hm)
    as (obj & ofe & pro & Hobj & Hofe & Hpro & Eo & Ecs & Es).
  destruct (formulate_Some _ _ _ _ Hm')
    as (obj' & ofe' & pro' & Hobj' & Hofe' & Hpro' & Eo' & Ecs' & Es').
  rewrite Hofe in Hofe'. injection Hofe' as <-.
  rewrite Hpro in Hpro'. injection Hpro' as <-.
  unfold Transporte.custo_total in Hobj, Hobj'.
  apply fmap_Some in Hobj as (ts & Hts & ->).
  apply fmap_Some in Hobj' as (ts' & Hts' & ->).
  destruct (custo_total_mono _ _ _ _ a' _ _ _ Hc Hts Hts') as [Evars Hle].
  assert (Hf : feasible m a').
  { split.
    - now rewrite Ecs, <- Ecs'.
    - unfold variables in *. now rewrite Eo, Ecs, Evars, <- Eo', <- Ecs'. }
  specialize (Hbest a' Hf). unfold no_worse in Hbest. rewrite Es in Hbest.
  assert (Hdom : Forall (in_domain a') (map snd (lpSum ts'))).
  { unfold variables in Hvs'. rewrite Eo' in Hvs'.
    now apply Forall_app in Hvs' as [H _]. }
  specialize (Hle Hdom). rewrite Eo in Hbest |- *. rewrite Eo'. lra.
Qed.

(** C5: a transportation model whose demand rows ask for more in total
    than its supply rows allow has a solve, and every solve of it reports
    [Infeasible]. *)
Theorem procura_excede_oferta_infeasible (nome : string) (rotulo : bool)
    (custo : gmap (string * string) Q) (m : LpProblem) :
  formulate nome rotulo custo = Some m ->
  total oferta armazens < total procura centros ->
  (exists s, solve_spec m s) /\
  forall s, solve_spec m s -> status s = LpStatusInfeasible.
Proof.
  intros Hm Hlt.
  assert (Hno : forall a, ~ feasible m a).
  { intros a Ha. apply feasibleb_spec in Ha.
    rewrite (mais_procura_que_oferta _ _ _ _ a Hm Hlt) in Ha.
    discriminate Ha. }
  split.
  - exists (MkSolution LpStatusInfeasible (fun _ => 0)). now constructor.
  - intros s Hs. destruct Hs as [a _ | a [b Hb] _ | a [Ha _]].
    + reflexivity.
    + destruct (Hno b Hb).
    + destruct (Hno a Ha).
Qed.

(** Two scenarios of a sweep: the dearer route costs at least as much. *)
Lemma sweep_result_mono (nome : string) (rotulo : bool)
    (custo : gmap (string * string) Q) (rota : string * string)
    (c c' v v' : Q) :
  c <= c' ->
  sweep_result armazens centros oferta procura nome rotulo custo rota c v ->
  sweep_result armazens centros oferta procura nome rotulo custo rota c' v' ->
  v <= v'.
Proof.
  intros Hc (m & a & Hm & Ho & Hv) (m' & a' & Hm' & Ho' & Hv').
  pose proof (otimo_mono _ _ _ _ _ _ _ _ _ _ Hc Hm Hm' Ho Ho'). lra.
Qed.

End Geral.
End TransporteGeral.

(** ** The sensitivity loops *)

Module SweepFacts.
Import Pulp Script PulpFacts SolveFacts SumFacts.

(** Copying a dictionary and writing to the copy: the copy holds the
    entry, the original is as it was. *)
Lemma copy_then_set (h : gmap nat (gmap (string * string) Q)) (src : nat)
    (d : gmap (string * string) Q) (k : string * string) (v : Q) :
  h !! src = Some d ->
  exists l h1, dict_copy src h = Some (l, h1) /\
    dict_setitem l k v h1 !! l = Some (<[k := v]> d) /\
    dict_setitem l k v h1 !! src = Some d.
Proof.
  intros Hd. unfold dict_copy, dict_setitem. rewrite Hd. simpl.
  exists (fresh (dom h)), (<[fresh (dom h) := d]> h).
  split; [reflexivity|].
  assert (Hne : fresh (dom h) <> src).
  { intros E. apply (is_fresh (dom h)). rewrite E.
    apply elem_of_dom. eauto. }
  split.
  - rewrite lookup_alter_eq, lookup_insert_eq. reflexivity.
  - rewrite lookup_alter_ne by exact Hne.
    rewrite lookup_insert_ne by exact Hne. exact Hd.
Qed.

Lemma transporte_model_sens_total (c : Q) :
  is_Some (Transporte.model_sens
             (<[("A2", "CD3") := c]> Transporte.custo_inicial)).
Proof.
  destruct (Transporte.model_sens _) eqn:E; [eauto|].
  vm_compute in E. discriminate E.
Qed.

Lemma transporte_loop_from (solve : LpProblem -> Solution)
    (d : gmap (string * string) Q) (cvals : list Q) (st : Store) :
  heap st !! 0%nat = Some d ->
  (forall c, is_Some (Transporte.model_sens (<[("A2", "CD3") := c]> d))) ->
  exists st' ms,
    for_each (Transporte.sens_body solve 0%nat) cvals st = Some st' /\
    Forall2 (fun c m =>
               Transporte.model_sens (<[("A2", "CD3") := c]> d) = Some m)
            cvals ms /\
    solved st' = (solved st ++ ms)%list /\
    results st' =
      (results st
       ++ map (fun m => value (objective m) (varValue (solve m))) ms)%list /\
    heap st' !! 0%nat = Some d.
Proof.
  intros Hd Htot. revert st Hd.
  induction cvals as [|c cvals IH]; intros st Hd.
  - exists st, []. simpl. rewrite !app_nil_r. auto using Forall2_nil.
  - destruct (copy_then_set _ _ _ ("A2", "CD3") c Hd)
      as (l & h1 & Hcopy & Hl & H0).
    destruct (Htot c) as [m Hm].
    cbn [for_each]. unfold Transporte.sens_body at 1.
    rewrite Hcopy. cbn [mbind option_bind]. rewrite Hl.
    cbn [mbind option_bind]. rewrite Hm. cbn [mbind option_bind].
    match goal with
    | |- context [for_each _ cvals ?s] => destruct (IH s) as
          (st' & ms & Hrun & Hms & Hsol & Hres & Hheap); [exact H0|]
    end.
    exists st', (m :: ms). rewrite Hrun. cbn in Hsol, Hres.
    rewrite Hsol, Hres, <- !app_assoc. cbn.
    auto using Forall2_cons.
Qed.

Lemma afetacao_m_sens_total (c : Q) :
  is_Some (Afetacao.m_sens
             (<[("F4", "Controlo") := c]> Afetacao.custo_inicial)).
Proof.
  destruct (Afetacao.m_sens _) eqn:E; [eauto|].
  vm_compute in E. discriminate E.
Qed.

Lemma afetacao_loop_from (solve : LpProblem -> Solution)
    (d : gmap (string * string) Q) (cvals : list Q) (st : Store) :
  heap st !! 0%nat = Some d ->
  (forall c, is_Some (Afetacao.m_sens (<[("F4", "Controlo") := c]> d))) ->
  exists st' ms,
    for_each (Afetacao.sens_body solve 0%nat) cvals st = Some st' /\
    Forall2 (fun c m =>
               Afetacao.m_sens (<[("F4", "Controlo") := c]> d) = Some m)
            cvals ms /\
    solved st' = (solved st ++ ms)%list /\
    results st' =
      (results st
       ++ map (fun m => value (objective m) (varValue (solve m))) ms)%list /\
    heap st' !! 0%nat = Some d.
Proof.
  intros Hd Htot. revert st Hd.
  induction cvals as [|c cvals IH]; intros st Hd.
  - exists st, []. simpl. rewrite !app_nil_r. auto using Forall2_nil.
  - destruct (copy_then_set _ _ _ ("F4", "Controlo") c Hd)
      as (l & h1 & Hcopy & Hl & H0).
    destruct (Htot c) as [m Hm].
    cbn [for_each]. unfold Afetacao.sens_body at 1.
    rewrite Hcopy. cbn [mbind option_bind]. rewrite Hl.
    cbn [mbind option_bind]. rewrite Hm. cbn [mbind option_bind].
    match goal with
    | |- context [for_each _ cvals ?s] => destruct (IH s) as
          (st' & ms & Hrun & Hms & Hsol & Hres & Hheap); [exact H0|]
    end.
    exists st', (m :: ms). rewrite Hrun. cbn in Hsol, Hres.
    rewrite Hsol, Hres, <- !app_assoc. cbn.
    auto using Forall2_cons.
Qed.

Lemma metas_m2_total (w : Q) : is_Some (Metas.m2 w).
Proof.
  destruct (Metas.m2 w) eqn:E; [eauto|]. vm_compute in E. discriminate E.
Qed.

Lemma metas_loop_from (solve : LpProblem -> Solution) (ws : list Q)
    (st : Store) :
  exists st' ms,
    for_each (Metas.sens_body solve) ws st = Some st' /\
    Forall2 (fun w m => Metas.m2 w = Some m) ws ms /\
    solved st' = (solved st ++ ms)%list /\
    results st' =
      (results st
       ++ map (fun m => value Metas.exp_A2 (varValue (solve m))) ms)%list /\
    heap st' = heap st.
Proof.
  revert st. induction ws as [|w ws IH]; intros st.
  - exists st, []. simpl. rewrite !app_nil_r. auto using Forall2_nil.
  - destruct (metas_m2_total w) as [m Hm].
    cbn [for_each]. unfold Metas.sens_body at 1.
    rewrite Hm. cbn [mbind option_bind].
    match goal with
    | |- context [for_each _ ws ?s] => destruct (IH s) as
          (st' & ms & Hrun & Hms & Hsol & Hres & Hheap)
    end.
    exists st', (m :: ms). rewrite Hrun. cbn in Hsol, Hres, Hheap.
    rewrite Hsol, Hres, <- !app_assoc. cbn.
    auto using Forall2_cons.
Qed.

(** C6: each of the three sensitivity loops runs to its end for every
    solver; it hands the solver exactly one model per value, in the order of
    the values, each built from the original data with that value alone
    substituted; it records one metric per solved model in the same order;
    and it leaves the original cost table as it was. *)
Theorem sweeps_solve_one_fresh_model_per_value
    (solve : LpProblem -> Solution) :
  (exists st,
     Transporte.sens_loop solve = Some st /\
     Forall2 (fun c m =>
                Transporte.model_sens
                  (<[("A2", "CD3") := c]> Transporte.custo_inicial) = Some m)
             Transporte.custos_variados (solved st) /\
     results st
     = map (fun m => value (objective m) (varValue (solve m))) (solved st) /\
     heap st !! 0%nat = Some Transporte.custo_inicial) /\
  (exists st,
     Afetacao.sens_loop solve = Some st /\
     Forall2 (fun c m =>
                Afetacao.m_sens
                  (<[("F4", "Controlo") := c]> Afetacao.custo_inicial)
                = Some m)
             Afetacao.cvals (solved st) /\
     results st
     = map (fun m => value (objective m) (varValue (solve m))) (solved st) /\
     heap st !! 0%nat = Some Afetacao.custo_inicial) /\
  (exists st,
     Metas.sens_loop solve = Some st /\
     Forall2 (fun w m => Metas.m2 w = Some m) Metas.w2_values (solved st) /\
     results st
     = map (fun m => value Metas.exp_A2 (varValue (solve m))) (solved st) /\
     heap st = heap Metas.inicio).
Proof.
  split; [|split].
  - destruct (transporte_loop_from solve Transporte.custo_inicial
                Transporte.custos_variados Transporte.inicio)
      as (st & ms & Hrun & Hms & Hsol & Hres & Hheap).
    + apply lookup_singleton_eq.
    + apply transporte_model_sens_total.
    + exists st. simpl in Hsol, Hres. subst ms. auto.
  - destruct (afetacao_loop_from solve Afetacao.custo_inicial
                Afetacao.cvals Afetacao.inicio)
      as (st & ms & Hrun & Hms & Hsol & Hres & Hheap).
    + apply lookup_singleton_eq.
    + apply afetacao_m_sens_total.
    + exists st. simpl in Hsol, Hres. subst ms. auto.
  - destruct (metas_loop_from solve Metas.w2_values Metas.inicio)
      as (st & ms & Hrun & Hms & Hsol & Hres & Hheap).
    exists st. simpl in Hsol, Hres. subst ms. auto.
Qed.

End SweepFacts.

(** ** transporte.py: the script's own models *)

Module TransporteFacts.
Import Pulp Script PulpFacts SolveFacts SumFacts Transporte.

Lemma plano_B_optimal_base (m : LpProblem) :
  model = Some m -> optimal m plano_B.
Proof.
  intros E. model_known E. split.
  - feasible_by_test.
  - intros b Hb. split_feasible Hb. unfold no_worse. cbn.
    eval_plan plano_B. lra.
Qed.

(** [plano_B] is optimal as soon as A2->CD3 costs 3.5 or more. *)
Lemma plano_B_optimal (c : Q) (m : LpProblem) :
  3.5 <= c ->
  model_sens (<[("A2", "CD3") := c]> custo_inicial) = Some m ->
  optimal m plano_B.
Proof.
  intros Hc E. model_known E. split.
  - feasible_by_test.
  - intros b Hb. split_feasible Hb. unfold no_worse. cbn.
    eval_plan plano_B.
    assert (0 <= (c - 3.5) * b "x_A2_CD3")
      by (apply Qmult_le_0_compat; lra).
    lra.
Qed.

(** [plano_A] is optimal while A2->CD3 costs between 3 and 3.5. *)
Lemma plano_A_optimal (c : Q) (m : LpProblem) :
  3 <= c -> c <= 3.5 ->
  model_sens (<[("A2", "CD3") := c]> custo_inicial) = Some m ->
  optimal m plano_A.
Proof.
  intros Hc0 Hc E. model_known E. split.
  - feasible_by_test.
  - intros b Hb. split_feasible Hb. unfold no_worse. cbn.
    eval_plan plano_A.
    assert (0 <= (c - 3)
                 * (b "x_A2_CD1" + b "x_A2_CD2" + b "x_A2_CD3" - 400))
      by (apply Qmult_le_0_compat; lra).
    assert (0 <= (3.5 - c) * b "x_A2_CD1")
      by (apply Qmult_le_0_compat; lra).
    assert (0 <= (c - 1.5) * (250 - b "x_A2_CD2"))
      by (apply Qmult_le_0_compat; lra).
    lra.
Qed.

Lemma custos_variados_ge_3 (c : Q) : In c custos_variados -> 3 <= c.
Proof.
  assert (H : forallb (Qle_bool 3) custos_variados = true)
    by (vm_compute; reflexivity).
  rewrite forallb_forall in H. intros Hc. apply Qle_bool_iff. now apply H.
Qed.

(** Every scenario of the script's sweep has an optimal plan. *)
Lemma sens_has_optimum (c : Q) (m : LpProblem) :
  In c custos_variados ->
  model_sens (<[("A2", "CD3") := c]> custo_inicial) = Some m ->
  exists a, optimal m a.
Proof.
  intros Hc E. apply custos_variados_ge_3 in Hc.
  destruct (Qlt_le_dec c 3.5).
  - exists plano_A. apply (plano_A_optimal c); [lra | lra | exact E].
  - exists plano_B. now apply (plano_B_optimal c).
Qed.

(** The objective of the base model is the sum over the routes of quantity
    times unit cost. *)
Lemma base_objective (m : LpProblem) (a : Assignment) :
  model = Some m ->
  value (objective m) a
  == custo_das_rotas armazens centros custo_inicial a.
Proof.
  intros E. model_known E.
  unfold custo_das_rotas, armazens, centros.
  cbn [value Qsum pairs flat_map map app fst snd x LpVariable_new name
       objective].
  eval_lookups custo_inicial. eval_names. cbn. lra.
Qed.

(** C2: the base transportation model has an optimal assignment, and
    every assignment that satisfies the model, the optimal ones among them,
    ships from each warehouse no more than its supply and delivers to each
    centre exactly its demand; the value of the objective at it is the sum
    over the routes of quantity times unit cost. *)
Theorem transporte_solution_respects_supply_and_demand :
  exists m, model = Some m /\
    optimal m plano_B /\
    forall a, feasible m a ->
      Forall (fun i => Qsum (fun j => a (name (x i j))) centros
                       <= default 0 (oferta !! i)) armazens /\
      Forall (fun j => Qsum (fun i => a (name (x i j))) armazens
                       == default 0 (procura !! j)) centros /\
      value (objective m) a
      == custo_das_rotas armazens centros custo_inicial a.
Proof.
  destruct model as [m|] eqn:E; [|vm_compute in E; discriminate E].
  exists m. split; [reflexivity|].
  split; [now apply plano_B_optimal_base|].
  intros a Hf.
  split; [|split]; [| |now apply base_objective].
  - model_known E. split_feasible Hf.
    unfold armazens, centros. apply Forall_fold.
    cbn [fold_right Qsum x LpVariable_new name]. eval_lookups oferta.
    eval_names. cbn. repeat (split; [lra|]). exact I.
  - model_known E. split_feasible Hf.
    unfold armazens, centros. apply Forall_fold.
    cbn [fold_right Qsum x LpVariable_new name]. eval_lookups procura.
    eval_names. cbn. repeat (split; [lra|]). exact I.
Qed.

(** The reference solver answers every scenario of the script's sweep
    with an optimal plan. *)
Lemma solve_ref_ok (c : Q) (m : LpProblem) :
  In c custos_variados ->
  model_sens (<[("A2", "CD3") := c]> custo_inicial) = Some m ->
  optimal m (varValue (solve_ref m)).
Proof.
  intros Hc E. apply custos_variados_ge_3 in Hc.
  unfold solve_ref. pose proof E as E'. model_known E'.
  destruct (Qle_bool 3.5 _) eqn:Hb; cbn [varValue].
  - apply Qle_bool_iff in Hb. cbn in Hb.
    apply (plano_B_optimal c); [lra | exact E].
  - apply not_true_iff_false in Hb. rewrite Qle_bool_iff in Hb. cbn in Hb.
    apply (plano_A_optimal c); [lra | lra | exact E].
Qed.

(** C3: raising one cost coefficient of a minimisation transportation
    model never lowers the optimal total cost.  For every transportation
    model and every non-decreasing list of values for the cost of one
    route, the optimal total costs of the perturbed models are in
    non-decreasing order; and the list [custo_total_lista] that the script's
    loop over [linspace(3.0, 8.0, 11)] builds is in non-decreasing order
    for every solver that answers each scenario with an optimal plan. *)
Theorem sweep_total_cost_monotone :
  (forall (armazens centros : list string) (oferta procura : gmap string Q)
          (nome : string) (rotulo : bool)
          (custo : gmap (string * string) Q) (rota : string * string)
          (cvals vs : list Q),
     StronglySorted Qle cvals ->
     Forall2 (sweep_result armazens centros oferta procura nome rotulo
                custo rota) cvals vs ->
     StronglySorted Qle vs) /\
  (forall solve : LpProblem -> Solution,
     (forall c m, In c custos_variados ->
        model_sens (<[("A2", "CD3") := c]> custo_inicial) = Some m ->
        optimal m (varValue (solve m))) ->
     exists l, custo_total_lista solve = Some l /\
               length l = length custos_variados /\
               StronglySorted Qle l).
Proof.
  split.
  - intros ar ce ofe pro nome rotulo custo rota cvals vs Hs H.
    apply (StronglySorted_Forall2 _ cvals vs) with (2 := Hs) (3 := H).
    intros c c' v v' Hc. now apply TransporteGeral.sweep_result_mono.
  - intros solve Hsolve.
    destruct (SweepFacts.transporte_loop_from solve custo_inicial
                custos_variados inicio)
      as (st & ms & Hrun & Hms & Hsol & Hres & Hheap).
    { apply lookup_singleton_eq. }
    { apply SweepFacts.transporte_model_sens_total. }
    exists (results st). unfold custo_total_lista, sens_loop.
    rewrite Hrun. split; [reflexivity|].
    simpl in Hres. rewrite Hres, length_map.
    split; [symmetry; exact (Forall2_length _ _ _ Hms)|].
    apply (StronglySorted_Forall2
             (fun c v => In c custos_variados /\
                exists m, model_sens (<[("A2", "CD3") := c]> custo_inicial)
                          = Some m /\
                          v = value (objective m) (varValue (solve m)))
             custos_variados).
    + intros c c' v v' Hc [Hin (m & E & ->)] [Hin' (m' & E' & ->)].
      exact (TransporteGeral.otimo_mono armazens centros oferta procura
               "Transporte_Sens" false custo_inicial ("A2", "CD3")
               c c' m m' _ _ Hc E E'
               (Hsolve c m Hin E) (Hsolve c' m' Hin' E')).
    + apply sortedb_spec. vm_compute. reflexivity.
    + apply Forall2_fmap_r. eapply Forall2_impl.
      * apply Forall2_and_In_l. exact Hms.
      * intros c m [Hin E]. split; [exact Hin|]. exists m. auto.
Qed.

(** The script's sweep under the reference solver, as an instance. *)
Lemma sweep_total_cost_monotone_witness :
  exists l, custo_total_lista solve_ref = Some l /\
            length l = length custos_variados /\
            StronglySorted Qle l.
Proof.
  exact (proj2 sweep_total_cost_monotone solve_ref solve_ref_ok).
Defined.

(** The supply of 600 boxes against the script's demand of 700, as an
    instance. *)
Lemma procura_excede_oferta_witness :
  exists m,
    formulate armazens centros oferta_curta procura "Transporte_Adega" true
      custo_inicial = Some m /\
    total oferta_curta armazens < total procura centros /\
    (exists s, solve_spec m s) /\
    forall s, solve_spec m s -> status s = LpStatusInfeasible.
Proof.
  destruct (formulate armazens centros oferta_curta procura
              "Transporte_Adega" true custo_inicial) as [m|] eqn:E;
    [|vm_compute in E; discriminate E].
  exists m. split; [reflexivity|].
  assert (Hlt : total oferta_curta armazens < total procura centros)
    by (vm_compute; reflexivity).
  split; [exact Hlt|].
  exact (TransporteGeral.procura_excede_oferta_infeasible
           armazens centros oferta_curta procura "Transporte_Adega" true
           custo_inicial m E Hlt).
Defined.

(** At a cost of 3.5 for A2->CD3 both plans are optimal: two different
    solves of one model, with the same status and objective value. *)
Lemma solve_deterministic_witness :
  exists m,
    model_sens (<[("A2", "CD3") := 3.5]> custo_inicial) = Some m /\
    plano_A "x_A1_CD1" = 200 /\ plano_B "x_A1_CD1" = 50 /\
    status (MkSolution LpStatusOptimal plano_A)
    = status (MkSolution LpStatusOptimal plano_B) /\
    objectiveValue m (MkSolution LpStatusOptimal plano_A)
    = objectiveValue m (MkSolution LpStatusOptimal plano_B).
Proof.
  destruct (model_sens (<[("A2", "CD3") := 3.5]> custo_inicial))
    as [m|] eqn:E; [|vm_compute in E; discriminate E].
  exists m. split; [reflexivity|].
  split; [reflexivity|]. split; [reflexivity|].
  apply (SolveFacts.solve_deterministic m).
  - constructor. apply (plano_A_optimal 3.5); [lra | lra | exact E].
  - constructor. apply (plano_B_optimal 3.5); [lra | exact E].
Defined.


(** The extraction of the table, over any list of routes the cost table
    knows: the rows are the routes with a positive quantity, each with its
    quantity, unit cost and their product; and when no quantity is
    negative the row totals add up to the cost of all the routes. *)
Lemma solucao_rows_spec (custo : gmap (string * string) Q) (a : Assignment)
    (keys : list (string * string)) :
  Forall (fun k => is_Some (custo !! k)) keys ->
  exists rss, mapM (solucao_row custo a) keys = Some rss /\
    (forall i j q cu ct,
       In (i, j, q, cu, ct) (concat rss) <->
       In (i, j) keys /\ q = a (name (x i j)) /\ 0 < q /\
       custo !! (i, j) = Some cu /\ ct = q * cu) /\
    (Forall (fun k => 0 <= a (name (x k.1 k.2))) keys ->
     Qsum row_total (concat rss)
     == Qsum (fun k => a (name (x k.1 k.2)) * default 0 (custo !! k)) keys).
Proof.
  induction 1 as [|[i0 j0] keys [c0 Hc0] _ IH].
  - exists []. split; [reflexivity|]. split.
    + intros i j q cu ct. simpl. tauto.
    + intros _. reflexivity.
  - destruct IH as (rss & Hrss & Hrows & Hsum).
    cbn [mapM]. rewrite Hrss. unfold solucao_row at 1. cbn [fst snd].
    rewrite Hc0. cbn [mbind option_bind mret option_ret].
    destruct (Qlt_le_dec 0 (a (name (x i0 j0)))) as [Hpos|Hle].
    + eexists. split; [reflexivity|]. split.
      * intros i j q cu ct. cbn [concat app In]. rewrite Hrows. split.
        -- intros [E|H]; [|tauto]. injection E as <- <- <- <- <-. tauto.
        -- intros [[E|Hin] (-> & Hq & Hcu & ->)]; [|right; tauto].
           injection E as <- <-. left. congruence.
      * intros Hall. apply Forall_cons in Hall as [_ Hall].
        specialize (Hsum Hall). cbn [concat app Qsum row_total snd fst].
        rewrite Hc0. cbn [from_option id].
        unfold row_total in Hsum. rewrite Hsum. reflexivity.
    + eexists. split; [reflexivity|]. split.
      * intros i j q cu ct. cbn [concat app In]. rewrite Hrows. split.
        -- tauto.
        -- intros [[E|Hin] (-> & Hq & Hcu & ->)]; [|tauto].
           injection E as <- <-. lra.
      * intros Hall. apply Forall_cons in Hall as [H0 Hall].
        cbn [fst snd] in H0.
        specialize (Hsum Hall). cbn [concat app Qsum fst snd].
        rewrite Hsum.
        assert (E0 : a (name (x i0 j0)) == 0) by lra.
        rewrite E0. lra.
Qed.

Lemma custo_inicial_knows_every_route :
  Forall (fun k => is_Some (custo_inicial !! k)) (pairs armazens centros).
Proof.
  unfold armazens, centros. cbn [pairs flat_map map app].
  rewrite !Forall_cons, Forall_nil. eval_lookups custo_inicial.
  repeat (split; [eexists; reflexivity|]). exact I.
Qed.

(** C9: for every assignment that satisfies the base model, the solved
    one among them, the script builds its table; the rows are exactly the
    routes with a quantity above 0, each row holding the quantity, the unit
    cost and their product; and the row totals add up to the value of the
    objective. *)
Theorem tabela_rows_are_positive_routes_and_sum_to_objective :
  exists m, model = Some m /\
    optimal m plano_B /\
    forall a, feasible m a ->
      exists rows, solucao a = Some rows /\
        (forall i j q cu ct,
           In (i, j, q, cu, ct) rows <->
           In (i, j) (pairs armazens centros) /\
           q = a (name (x i j)) /\ 0 < q /\
           custo_inicial !! (i, j) = Some cu /\ ct = q * cu) /\
        Qsum row_total rows == value (objective m) a.
Proof.
  destruct model as [m|] eqn:E; [|vm_compute in E; discriminate E].
  exists m. split; [reflexivity|].
  split; [now apply plano_B_optimal_base|].
  intros a Hf.
  destruct (solucao_rows_spec custo_inicial a _
              custo_inicial_knows_every_route)
    as (rss & Hrss & Hrows & Hsum).
  exists (concat rss). unfold solucao. rewrite Hrss.
  split; [reflexivity|]. split; [exact Hrows|].
  rewrite (base_objective m _ E). unfold custo_das_rotas.
  apply Hsum. clear Hsum Hrows Hrss.
  pose proof E as E'. model_known E'. split_feasible Hf.
  unfold armazens, centros. apply Forall_fold.
  cbn [pairs flat_map map app fold_right fst snd x LpVariable_new name].
  eval_names. repeat (split; [tauto|]). exact I.
Qed.

End TransporteFacts.

(** ** afetacao.py *)

Module AfetacaoFacts.
Import Pulp Script PulpFacts SolveFacts SumFacts Afetacao.

Lemma otimo_optimal (m : LpProblem) : model = Some m -> optimal m otimo.
Proof.
  intros E. model_known E. split.
  - feasible_by_test.
  - intros b Hb. split_feasible Hb. unfold no_worse. cbn.
    eval_plan otimo. lra.
Qed.

(** An optimal allocation is [otimo], variable by variable. *)
Lemma otimo_unique (m : LpProblem) (a : Assignment) :
  model = Some m -> optimal m a ->
  Forall (fun ij => a (name (x (Some 0) (Some 1) ij.1 ij.2))
                    == otimo (name (x (Some 0) (Some 1) ij.1 ij.2)))
         (pairs funcionarios tarefas).
Proof.
  intros E [Hf Hbest].
  pose proof (otimo_optimal m E) as [Ho _].
  specialize (Hbest otimo Ho). clear Ho.
  model_known E. split_feasible Hf. unfold no_worse in Hbest. cbn in Hbest.
  revert Hbest. eval_plan otimo. intros Hbest.
  apply Forall_fold. unfold funcionarios, tarefas.
  cbn [pairs flat_map map app fold_right fst snd x LpVariable_new name].
  eval_names. eval_plan otimo.
  repeat (split; [lra|]). exact I.
Qed.

Lemma otimo_value (m : LpProblem) (a : Assignment) :
  model = Some m -> optimal m a -> value (objective m) a == 100.
Proof.
  intros E Ha.
  rewrite (optimal_values_agree m a otimo Ha (otimo_optimal m E)).
  model_known E. cbn. eval_plan otimo. lra.
Qed.

(** C1: the base assignment model has an optimal allocation; every
    optimal allocation has total cost exactly 100 and gives every variable
    the value it has in [otimo]: the optimum is unique. *)
Theorem afetacao_optimum_is_100_and_unique :
  exists m, model = Some m /\
    optimal m otimo /\
    forall a, optimal m a ->
      value (objective m) a == 100 /\
      Forall (fun ij =>
                a (name (x (Some 0) (Some 1) ij.1 ij.2))
                == otimo (name (x (Some 0) (Some 1) ij.1 ij.2)))
             (pairs funcionarios tarefas).
Proof.
  destruct model as [m|] eqn:E; [|vm_compute in E; discriminate E].
  exists m. split; [reflexivity|].
  split; [now apply otimo_optimal|].
  intros a Ha. split.
  - now apply otimo_value.
  - now apply (otimo_unique m).
Qed.

(** A loop whose bodies agree on the values it visits computes the same. *)
Lemma for_each_ext {A S : Type} (body body' : A -> S -> option S)
    (l : list A) (s : S) :
  (forall v s', In v l -> body v s' = body' v s') ->
  for_each body l s = for_each body' l s.
Proof.
  revert s. induction l as [|v l IH]; intros s H; simpl; [reflexivity|].
  rewrite (H v s (or_introl eq_refl)).
  destruct (body' v s) as [s'|]; [|reflexivity].
  apply IH. intros v' s'' Hv'. apply H. now right.
Qed.

(** The extraction reads the values only through its test against 1. *)
Lemma extrair_ext (a a' : Assignment) :
  Forall (fun ij => a (name (x (Some 0) (Some 1) ij.1 ij.2))
                    == a' (name (x (Some 0) (Some 1) ij.1 ij.2)))
         (pairs funcionarios tarefas) ->
  extrair a = extrair a'.
Proof.
  intros H. unfold extrair. apply for_each_ext. intros ij st Hin.
  rewrite List.Forall_forall in H. specialize (H ij Hin).
  unfold extrair_body.
  destruct (Qeq_bool (a _) 1) eqn:E1, (Qeq_bool (a' _) 1) eqn:E2;
    try reflexivity.
  - apply Qeq_bool_iff in E1. apply not_true_iff_false in E2.
    destruct E2. apply Qeq_bool_iff. lra.
  - apply Qeq_bool_iff in E2. apply not_true_iff_false in E1.
    destruct E1. apply Qeq_bool_iff. lra.
Qed.

(** C8: for every optimal allocation of the base assignment model the
    extraction loop, with its exact test against 1, ends with an allocation
    whose keys are the four tasks, each exactly once, mapped to four
    distinct workers; it printed one line per task; and the recorded costs
    add up to the value of the objective. *)
Theorem extraction_gives_each_task_once_and_costs_sum_to_objective :
  exists m, model = Some m /\
    optimal m otimo /\
    forall a, optimal m a ->
      exists e, extrair a = Some e /\
        tarefas_ord e ≡ₚ tarefas /\
        NoDup (tarefas_ord e) /\
        NoDup (labels_func e) /\
        map (fun l => fst (fst l)) (impresso e) = tarefas_ord e /\
        Qsum id (custos_tarefas e) == value (objective m) a.
Proof.
  destruct model as [m|] eqn:E; [|vm_compute in E; discriminate E].
  exists m. split; [reflexivity|].
  split; [now apply otimo_optimal|].
  intros a Ha.
  rewrite (extrair_ext _ otimo (otimo_unique m _ E Ha)).
  destruct (extrair otimo) as [e|] eqn:Ee; [|vm_compute in Ee; discriminate].
  vm_compute in Ee. injection Ee as <-.
  eexists. split; [reflexivity|].
  unfold tarefas_ord, labels_func, custos_tarefas, tarefas.
  cbn [alocacao impresso map fst snd Qsum id].
  split; [|split; [|split; [|split]]].
  - etrans; [apply Permutation_swap|].
    etrans; [apply perm_skip, Permutation_swap|].
    apply Permutation_swap.
  - apply NoDup_ListNoDup. repeat constructor; cbn; intuition discriminate.
  - apply NoDup_ListNoDup. repeat constructor; cbn; intuition discriminate.
  - reflexivity.
  - rewrite (otimo_value m _ E Ha). reflexivity.
Qed.

(** While F4->Controlo costs at most 25, [otimo] is optimal. *)
Lemma otimo_optimal_sens (c : Q) (m : LpProblem) :
  c <= 25 ->
  m_sens (<[("F4", "Controlo") := c]> custo_inicial) = Some m ->
  optimal m otimo.
Proof.
  intros Hc E. model_known E. split.
  - feasible_by_test.
  - intros b Hb. split_feasible Hb. unfold no_worse. cbn.
    eval_plan otimo.
    assert (0 <= (25 - c) * (1 - b "x_F4_Controlo"))
      by (apply Qmult_le_0_compat; lra).
    lra.
Qed.

(** From a cost of 25 on, [alternativa] is optimal. *)
Lemma alternativa_optimal_sens (c : Q) (m : LpProblem) :
  25 <= c ->
  m_sens (<[("F4", "Controlo") := c]> custo_inicial) = Some m ->
  optimal m alternativa.
Proof.
  intros Hc E. model_known E. split.
  - feasible_by_test.
  - intros b Hb. split_feasible Hb. unfold no_worse. cbn.
    eval_plan alternativa.
    assert (0 <= (c - 25) * b "x_F4_Controlo")
      by (apply Qmult_le_0_compat; lra).
    lra.
Qed.

Lemma m_sens_has_optimum (c : Q) (m : LpProblem) :
  m_sens (<[("F4", "Controlo") := c]> custo_inicial) = Some m ->
  exists a, optimal m a.
Proof.
  intros E. destruct (Qlt_le_dec c 25).
  - exists otimo. apply (otimo_optimal_sens c); [lra | exact E].
  - exists alternativa. now apply (alternativa_optimal_sens c).
Qed.

End AfetacaoFacts.

(** ** metas.py *)

Module MetasFacts.
Import Pulp Script PulpFacts SolveFacts SumFacts Metas.

Lemma plano_meta_optimal (m : LpProblem) :
  model = Some m -> optimal m plano_meta.
Proof.
  intros E. model_known E. split.
  - feasible_by_test.
  - intros b Hb. split_feasible Hb. unfold no_worse. cbn.
    eval_plan plano_meta. lra.
Qed.

(** Without the goals the cheapest plan costs 1775. *)
Lemma plano_barato_optimal (r : LpProblem) :
  sem_metas = Some r -> optimal r plano_barato.
Proof.
  intros E. model_known E. split.
  - feasible_by_test.
  - intros b Hb. split_feasible Hb. unfold no_worse. cbn.
    eval_plan plano_barato. lra.
Qed.

Lemma optimal_d1_plus_zero (m : LpProblem) (a : Assignment) :
  model = Some m -> optimal m a -> a (name d1_plus) == 0.
Proof.
  intros E [Hf Hbest].
  pose proof (plano_meta_optimal m E) as [Ho _].
  specialize (Hbest plano_meta Ho). clear Ho.
  model_known E. split_feasible Hf. unfold no_worse in Hbest. cbn in Hbest.
  revert Hbest. eval_plan plano_meta. intros Hbest.
  cbn. lra.
Qed.

(** C4: in the goal programme with weights 1 and 1, when the cheapest
    plan of the transportation part alone costs less than 2500, every
    optimal assignment leaves [d1_plus] at 0. *)
Theorem metas_optimum_keeps_d1_plus_zero (m r : LpProblem)
    (barato a : Assignment) :
  model = Some m -> sem_metas = Some r ->
  optimal r barato -> value (objective r) barato < 2500 ->
  optimal m a ->
  a (name d1_plus) == 0.
Proof.
  intros E _ _ _ Ha. now apply (optimal_d1_plus_zero m).
Qed.

(** The script's data, as an instance: the cheapest plan costs 1775. *)
Lemma metas_optimum_keeps_d1_plus_zero_witness :
  exists m r, model = Some m /\ sem_metas = Some r /\
    optimal r plano_barato /\
    value (objective r) plano_barato == 1775 /\
    optimal m plano_meta /\
    plano_meta (name d1_plus) == 0.
Proof.
  destruct model as [m|] eqn:E; [|vm_compute in E; discriminate E].
  destruct sem_metas as [r|] eqn:Er; [|vm_compute in Er; discriminate Er].
  exists m, r. split; [reflexivity|]. split; [reflexivity|].
  pose proof (plano_barato_optimal r Er) as Hb.
  pose proof (plano_meta_optimal m E) as Hm.
  assert (Hv : value (objective r) plano_barato == 1775).
  { pose proof Er as Er'. model_known Er'. vm_compute. reflexivity. }
  split; [exact Hb|]. split; [exact Hv|]. split; [exact Hm|].
  apply (metas_optimum_keeps_d1_plus_zero m r plano_barato plano_meta
           E Er Hb); [|exact Hm].
  rewrite Hv. reflexivity.
Defined.

(** Each model of the weight loop has an optimal plan: [plano_meta] up
    to a weight of 3, where the cost target wins, and [plano_A2] from 3 on,
    where the A2 target wins. *)
Lemma m2_has_optimum (w : Q) (m : LpProblem) :
  In w w2_values -> m2 w = Some m -> exists a, optimal m a.
Proof.
  intros Hw E. unfold w2_values, linspace in Hw. cbn [seq map In] in Hw.
  repeat (destruct Hw as [<-|Hw]; [|]); [..|destruct Hw];
    model_known E;
    first
      [ solve [ exists plano_meta; split;
                [ feasible_by_test
                | intros b Hb; split_feasible Hb; unfold no_worse; cbn;
                  eval_plan plano_meta; lra ] ]
      | solve [ exists plano_A2; split;
                [ feasible_by_test
                | intros b Hb; split_feasible Hb; unfold no_worse; cbn;
                  eval_plan plano_A2; lra ] ] ].
Qed.

End MetasFacts.

(** ** Lower bounds *)

(** The lower bounds of a model known in full. *)
Ltac bounds_by_inspection :=
  unfold Script.lower_bounds_zero, Pulp.variables;
  apply PulpFacts.Forall_fold; cbn; repeat split.

Module BoundFacts.
Import Pulp Script PulpFacts SolveFacts SumFacts.

(** Within lower bounds of 0 a feasible assignment has no negative
    value. *)
Lemma feasible_nonnegative (m : LpProblem) (a : Assignment) :
  lower_bounds_zero m -> feasible m a -> nonnegative m a.
Proof.
  unfold lower_bounds_zero, nonnegative. intros Hlo [_ Hdom].
  rewrite List.Forall_forall in *. intros v Hv.
  specialize (Hlo v Hv). destruct (Hdom v Hv) as [Habove _].
  unfold above in Habove. rewrite Hlo in Habove. exact Habove.
Qed.

(** A model with lower bounds 0 and an optimal plan is never satisfied
    with a negative value. *)
Lemma optimum_always_nonnegative (m : LpProblem) (a : Assignment) :
  lower_bounds_zero m -> optimal m a -> always_nonnegative m.
Proof.
  intros Hlo Ha. split; [exact Hlo|]. split; [now exists a|].
  intros b Hb. now apply feasible_nonnegative.
Qed.

(** C10: every variable of the three base models and of every model of
    the three sensitivity loops has lower bound 0; each of these models has
    an optimal assignment, and every assignment that satisfies it, so every
    solved one, leaves every variable non-negative. *)
Theorem every_solved_variable_is_nonnegative :
  (exists m, Transporte.model = Some m /\ always_nonnegative m) /\
  Forall (fun c => exists m,
            Transporte.model_sens
              (<[("A2", "CD3") := c]> Transporte.custo_inicial) = Some m /\
            always_nonnegative m)
         Transporte.custos_variados /\
  (exists m, Afetacao.model = Some m /\ always_nonnegative m) /\
  Forall (fun c => exists m,
            Afetacao.m_sens
              (<[("F4", "Controlo") := c]> Afetacao.custo_inicial) = Some m /\
            always_nonnegative m)
         Afetacao.cvals /\
  (exists m, Metas.model = Some m /\ always_nonnegative m) /\
  Forall (fun w => exists m, Metas.m2 w = Some m /\ always_nonnegative m)
         Metas.w2_values.
Proof.
  split; [|split; [|split; [|split; [|split]]]].
  - destruct Transporte.model as [m|] eqn:E;
      [|vm_compute in E; discriminate E].
    exists m. split; [reflexivity|].
    apply (optimum_always_nonnegative m Transporte.plano_B).
    + pose proof E as E'. model_known E'. bounds_by_inspection.
    + now apply TransporteFacts.plano_B_optimal_base.
  - apply List.Forall_forall. intros c Hc.
    destruct (SweepFacts.transporte_model_sens_total c) as [m E].
    exists m. split; [exact E|].
    destruct (TransporteFacts.sens_has_optimum c m Hc E) as [a Ha].
    apply (optimum_always_nonnegative m a); [|exact Ha].
    pose proof E as E'. model_known E'. bounds_by_inspection.
  - destruct Afetacao.model as [m|] eqn:E;
      [|vm_compute in E; discriminate E].
    exists m. split; [reflexivity|].
    apply (optimum_always_nonnegative m Afetacao.otimo).
    + pose proof E as E'. model_known E'. bounds_by_inspection.
    + now apply AfetacaoFacts.otimo_optimal.
  - apply List.Forall_forall. intros c Hc.
    destruct (SweepFacts.afetacao_m_sens_total c) as [m E].
    exists m. split; [exact E|].
    destruct (AfetacaoFacts.m_sens_has_optimum c m E) as [a Ha].
    apply (optimum_always_nonnegative m a); [|exact Ha].
    pose proof E as E'. model_known E'. bounds_by_inspection.
  - destruct Metas.model as [m|] eqn:E;
      [|vm_compute in E; discriminate E].
    exists m. split; [reflexivity|].
    apply (optimum_always_nonnegative m Metas.plano_meta).
    + pose proof E as E'. model_known E'. bounds_by_inspection.
    + now apply MetasFacts.plano_meta_optimal.
  - apply List.Forall_forall. intros w Hw.
    destruct (SweepFacts.metas_m2_total w) as [m E].
    exists m. split; [exact E|].
    destruct (MetasFacts.m2_has_optimum w m Hw E) as [a Ha].
    apply (optimum_always_nonnegative m a); [|exact Ha].
    pose proof E as E'. model_known E'. bounds_by_inspection.
Qed.

End BoundFacts.

(** ** The scripts on their own data *)

Module Runs.
Import Pulp Script.

(** [linspace(3.0, 8.0, 11)], [linspace(20, 50, 7)] and
    [linspace(0, 5, 6)], in lowest terms. *)
Example custos_variados_values :
  map Qred Transporte.custos_variados
  = [3; 7 # 2; 4; 9 # 2; 5; 11 # 2; 6; 13 # 2; 7; 15 # 2; 8].
Proof. vm_compute. reflexivity. Qed.

Example cvals_values :
  map Qred Afetacao.cvals = [20; 25; 30; 35; 40; 45; 50].
Proof. vm_compute. reflexivity. Qed.

Example w2_values_values :
  map Qred Metas.w2_values = [0; 1; 2; 3; 4; 5].
Proof. vm_compute. reflexivity. Qed.

(** Tabela 1 for the plan that serves CD3 from A1 first. *)
Example solucao_plano_B :
  Transporte.solucao Transporte.plano_B
  = Some [("A1", "CD1", 50, 2.0, 50 * 2.0);
          ("A1", "CD3", 250, 3.0, 250 * 3.0);
          ("A2", "CD1", 150, 2.5, 150 * 2.5);
          ("A2", "CD2", 250, 2.0, 250 * 2.0)].
Proof. vm_compute. reflexivity. Qed.

(** The total costs of the transportation sweep under the reference
    solver: 1650 for a cost of 3.0, and 1725 from 3.5 on. *)
Example custo_total_lista_solve_ref :
  option_map (map Qred)
    (Transporte.custo_total_lista Transporte.solve_ref)
  = Some [1650; 1725; 1725; 1725; 1725; 1725; 1725; 1725; 1725; 1725;
          1725].
Proof. vm_compute. reflexivity. Qed.

(** The extraction loop on the optimal allocation. *)
Example extrair_otimo :
  Afetacao.extrair Afetacao.otimo
  = Some (Afetacao.MkExtracao
            [("Engarrafamento", ("F1", 30)); ("Transporte", ("F2", 30));
             ("Lavagem", ("F3", 20)); ("Controlo", ("F4", 20))]
            [("Engarrafamento", "F1", 30); ("Transporte", "F2", 30);
             ("Lavagem", "F3", 20); ("Controlo", "F4", 20)]).
Proof. vm_compute. reflexivity. Qed.

(** A later write to a key keeps the key's place in the dictionary. *)
Example assoc_set_overwrites_in_place :
  assoc_set "b" 9%nat [("a", 1%nat); ("b", 2%nat); ("c", 3%nat)]
  = [("a", 1%nat); ("b", 9%nat); ("c", 3%nat)].
Proof. reflexivity. Qed.

(** The goal programme at its optimum: cost 2500, 850/3 boxes from A2. *)
Example plano_meta_figures :
  ((fun e => Qred (value e Metas.plano_meta))
     <$> Metas.cost_expr Metas.custo) = Some 2500 /\
  Qred (value Metas.exp_A2 Metas.plano_meta) = 850 # 3.
Proof. split; vm_compute; reflexivity. Qed.

End Runs.

(** * Further properties of the scripts *)

(** ** transporte.py: what the formulation needs and what it bounds *)

Module FormulacaoFacts.
Import Pulp Script PulpFacts SolveFacts SumFacts Transporte.

Section Geral.
Variables armazens centros : list string.
Variables oferta procura : gmap string Q.

Local Abbreviation formulate :=
  (formulate armazens centros oferta procura).
Local Abbreviation custo_total := (custo_total armazens centros).
Local Abbreviation restricao_oferta := (restricao_oferta centros oferta).
Local Abbreviation restricao_procura := (restricao_procura armazens procura).

(** X1: building the model raises exactly when a table lacks a key the
    loops read: a route in the cost table, a warehouse in the supply table,
    a centre in the demand table. *)
Theorem formulate_raises_iff_key_missing (nome : string) (rotulo : bool)
    (custo : gmap (string * string) Q) :
  is_Some (formulate nome rotulo custo) <->
  Forall (fun ij => is_Some (custo !! ij)) (pairs armazens centros) /\
  Forall (fun i => is_Some (oferta !! i)) armazens /\
  Forall (fun j => is_Some (procura !! j)) centros.
Proof.
  unfold Transporte.formulate, Transporte.custo_total.
  assert (H1 : is_Some (mapM (fun ij => c ← custo !! ij;
                                  Some (term c (x ij.1 ij.2)))
                             (pairs armazens centros)) <->
               Forall (fun ij => is_Some (custo !! ij))
                      (pairs armazens centros)).
  { rewrite mapM_is_Some. apply Forall_proper; [|reflexivity].
    intros ij. unfold compose. destruct (custo !! ij); simpl.
    - split; eauto.
    - split; intros [? ?]; discriminate. }
  assert (H2 : is_Some (mapM (restricao_oferta rotulo) armazens) <->
               Forall (fun i => is_Some (oferta !! i)) armazens).
  { rewrite mapM_is_Some. apply Forall_proper; [|reflexivity].
    intros i. unfold compose, Transporte.restricao_oferta.
    destruct (oferta !! i); simpl.
    - split; eauto.
    - split; intros [? ?]; discriminate. }
  assert (H3 : is_Some (mapM (restricao_procura rotulo) centros) <->
               Forall (fun j => is_Some (procura !! j)) centros).
  { rewrite mapM_is_Some. apply Forall_proper; [|reflexivity].
    intros j. unfold compose, Transporte.restricao_procura.
    destruct (procura !! j); simpl.
    - split; eauto.
    - split; intros [? ?]; discriminate. }
  rewrite <- H1, <- H2, <- H3.
  destruct (mapM (fun ij => c ← custo !! ij; Some (term c (x ij.1 ij.2)))
                 (pairs armazens centros)) as [ts|]; simpl.
  - destruct (mapM (restricao_oferta rotulo) armazens) as [ofe|]; simpl.
    + destruct (mapM (restricao_procura rotulo) centros) as [pro|]; simpl.
      * split; eauto.
      * split; [intros [? ?]; discriminate|].
        intros (_ & _ & [? ?]). discriminate.
    + split; [intros [? ?]; discriminate|].
      intros (_ & [? ?] & _). discriminate.
  - split; [intros [? ?]; discriminate|].
    intros ([? ?] & _). discriminate.
Qed.

(** The variables of the objective are the route variables, in the order
    of the comprehension. *)
Lemma custo_total_vars (custo : gmap (string * string) Q)
    (obj : LpAffineExpression) :
  custo_total custo = Some obj ->
  map snd obj = map (fun ij => x ij.1 ij.2) (pairs armazens centros).
Proof.
  unfold Transporte.custo_total. intros H.
  apply fmap_Some in H as (ts & Hts & ->).
  apply mapM_Some in Hts. unfold lpSum.
  induction Hts as [|ij t l ts Ht _ IH]; [reflexivity|].
  destruct (custo !! ij) as [c|]; [|discriminate Ht].
  simpl in Ht. injection Ht as <-. cbn [concat term app map snd].
  now rewrite IH.
Qed.

Lemma lpSum_vars {A : Type} (f : A -> LpVariable) (l : list A) :
  map snd (lpSum (map (fun k => var (f k)) l)) = map f l.
Proof.
  unfold lpSum. induction l as [|k l IH]; [reflexivity|].
  cbn. now rewrite IH.
Qed.

(** A supply row holds when what leaves the warehouse is within its
    supply. *)
Lemma oferta_rows_iff (rotulo : bool) (a : Assignment) (l : list string)
    (ofe : list LpConstraint) :
  mapM (restricao_oferta rotulo) l = Some ofe ->
  flat_map (fun c => map snd (cexpr c)) ofe
  = flat_map (fun i => map (x i) centros) l /\
  (Forall (satisfies a) ofe <->
   Forall (fun i => Qsum (fun j => a (name (x i j))) centros
                    <= default 0 (oferta !! i)) l).
Proof.
  rewrite mapM_Some. intros H.
  induction H as [|i c l ofe Hi _ [IH1 IH2]].
  - split; [reflexivity|]. split; constructor.
  - unfold Transporte.restricao_oferta in Hi.
    destruct (oferta !! i) as [o|] eqn:Eo; [|discriminate Hi].
    simpl in Hi. injection Hi as <-. split.
    + cbn [flat_map cexpr]. now rewrite lpSum_vars, IH1.
    + rewrite !Forall_cons, IH2, Eo. unfold satisfies.
      cbn [csense cexpr crhs]. rewrite value_lpSum_vars. reflexivity.
Qed.

(** A demand row holds when what reaches the centre is its demand. *)
Lemma procura_rows_iff (rotulo : bool) (a : Assignment) (l : list string)
    (pro : list LpConstraint) :
  mapM (restricao_procura rotulo) l = Some pro ->
  flat_map (fun c => map snd (cexpr c)) pro
  = flat_map (fun j => map (fun i => x i j) armazens) l /\
  (Forall (satisfies a) pro <->
   Forall (fun j => Qsum (fun i => a (name (x i j))) armazens
                    == default 0 (procura !! j)) l).
Proof.
  rewrite mapM_Some. intros H.
  induction H as [|j c l pro Hj _ [IH1 IH2]].
  - split; [reflexivity|]. split; constructor.
  - unfold Transporte.restricao_procura in Hj.
    destruct (procura !! j) as [p|] eqn:Ep; [|discriminate Hj].
    simpl in Hj. injection Hj as <-. split.
    + cbn [flat_map cexpr]. now rewrite lpSum_vars, IH1.
    + rewrite !Forall_cons, IH2, Ep. unfold satisfies.
      cbn [csense cexpr crhs]. rewrite value_lpSum_vars. reflexivity.
Qed.

Lemma in_domain_x (a : Assignment) (i j : string) :
  in_domain a (x i j) <-> 0 <= a (name (x i j)).
Proof.
  unfold in_domain, above, below. cbn. tauto.
Qed.

Lemma elem_of_pairs (i j : string) (l1 l2 : list string) :
  (i, j) ∈ pairs l1 l2 <-> i ∈ l1 /\ j ∈ l2.
Proof.
  unfold pairs. rewrite list_elem_of_In, in_flat_map. split.
  - intros (i' & Hi & Hj). apply in_map_iff in Hj as (j' & E & Hj).
    injection E as -> ->. now rewrite !list_elem_of_In.
  - intros [Hi Hj]. exists i. rewrite <- list_elem_of_In. split; [exact Hi|].
    apply in_map_iff. exists j. now rewrite <- list_elem_of_In.
Qed.

(** The bounds of a model's variables hold when no route carries a
    negative quantity. *)
Lemma variables_in_domain (nome : string) (rotulo : bool)
    (custo : gmap (string * string) Q) (m : LpProblem) (a : Assignment) :
  formulate nome rotulo custo = Some m ->
  Forall (in_domain a) (variables m) <->
  Forall (fun ij => 0 <= a (name (x ij.1 ij.2))) (pairs armazens centros).
Proof.
  intros Hm.
  destruct (TransporteGeral.formulate_Some _ _ _ _ _ _ _ _ Hm)
    as (obj & ofe & pro & Hobj & Hofe & Hpro & Eo & Ecs & _).
  unfold variables. rewrite Eo, Ecs, (custo_total_vars _ _ Hobj).
  rewrite flat_map_app.
  rewrite (proj1 (oferta_rows_iff rotulo a _ _ Hofe)).
  rewrite (proj1 (procura_rows_iff rotulo a _ _ Hpro)).
  rewrite !Forall_app, Forall_fmap. split.
  - intros [H _]. eapply Forall_impl; [exact H|].
    intros ij Hij. unfold compose in Hij. now apply in_domain_x in Hij.
  - intros H. rewrite Forall_forall in H. split; [|split].
    + apply Forall_forall. intros ij Hij. unfold compose.
      apply in_domain_x. auto.
    + apply Forall_forall. intros v Hv.
      apply list_elem_of_In, in_flat_map in Hv as (i & Hi & Hv).
      apply in_map_iff in Hv as (j & <- & Hj). apply in_domain_x.
      apply (H (i, j)). apply elem_of_pairs.
      now rewrite !list_elem_of_In.
    + apply Forall_forall. intros v Hv.
      apply list_elem_of_In, in_flat_map in Hv as (j & Hj & Hv).
      apply in_map_iff in Hv as (i & <- & Hi). apply in_domain_x.
      apply (H (i, j)). apply elem_of_pairs.
      now rewrite !list_elem_of_In.
Qed.

(** X2: the plans a transportation model admits are those with no negative
    quantity, each warehouse within its supply and each centre receiving its
    demand; the cost table, the model's name and the row labels play no
    part. *)
Theorem feasible_iff_supply_and_demand_met (nome : string) (rotulo : bool)
    (custo : gmap (string * string) Q) (m : LpProblem) (a : Assignment) :
  formulate nome rotulo custo = Some m ->
  feasible m a <->
  Forall (fun ij => 0 <= a (name (x ij.1 ij.2))) (pairs armazens centros) /\
  Forall (fun i => Qsum (fun j => a (name (x i j))) centros
                   <= default 0 (oferta !! i)) armazens /\
  Forall (fun j => Qsum (fun i => a (name (x i j))) armazens
                   == default 0 (procura !! j)) centros.
Proof.
  intros Hm. unfold feasible. rewrite (variables_in_domain _ _ _ _ a Hm).
  destruct (TransporteGeral.formulate_Some _ _ _ _ _ _ _ _ Hm)
    as (obj & ofe & pro & _ & Hofe & Hpro & _ & Ecs & _).
  rewrite Ecs, Forall_app.
  rewrite (proj2 (oferta_rows_iff rotulo a _ _ Hofe)).
  rewrite (proj2 (procura_rows_iff rotulo a _ _ Hpro)).
  tauto.
Qed.

(** A term of a sum of non-negative numbers is at most the sum. *)
Lemma Qsum_term_le {A : Type} (f : A -> Q) (l : list A) (k : A) :
  Forall (fun k' => 0 <= f k') l -> k ∈ l -> f k <= Qsum f l.
Proof.
  intros H Hk. induction H as [|k' l Hk' H IH]; [inversion Hk|].
  assert (0 <= Qsum f l).
  { clear -H. induction H; cbn [Qsum]; lra. }
  cbn [Qsum]. apply elem_of_cons in Hk as [->|Hk]; [lra|].
  specialize (IH Hk). lra.
Qed.

(** X3: in a plan the model admits, the quantity on a route is between 0
    and the smaller of the warehouse's supply and the centre's demand. *)
Theorem feasible_route_within_supply_and_demand (nome : string)
    (rotulo : bool) (custo : gmap (string * string) Q) (m : LpProblem)
    (a : Assignment) (i j : string) :
  formulate nome rotulo custo = Some m -> feasible m a ->
  i ∈ armazens -> j ∈ centros ->
  0 <= a (name (x i j)) /\
  a (name (x i j)) <= default 0 (oferta !! i) /\
  a (name (x i j)) <= default 0 (procura !! j).
Proof.
  intros Hm Hf Hi Hj.
  pose proof (variables_in_domain _ _ _ _ a Hm) as Hv.
  destruct Hf as [Hc Hd]. apply Hv in Hd.
  destruct (TransporteGeral.formulate_Some _ _ _ _ _ _ _ _ Hm)
    as (obj & ofe & pro & _ & Hofe & Hpro & _ & Ecs & _).
  rewrite Ecs, Forall_app in Hc. destruct Hc as [Ho Hp].
  apply (proj2 (oferta_rows_iff rotulo a _ _ Hofe)) in Ho.
  apply (proj2 (procura_rows_iff rotulo a _ _ Hpro)) in Hp.
  rewrite Forall_forall in Hd. rewrite Forall_forall in Ho.
  rewrite Forall_forall in Hp.
  specialize (Ho i Hi). specialize (Hp j Hj). cbv beta in Ho, Hp.
  assert (H0 : forall i' j', i' ∈ armazens -> j' ∈ centros ->
                             0 <= a (name (x i' j'))).
  { intros i' j' Hi' Hj'. apply (Hd (i', j')). now apply elem_of_pairs. }
  split; [now apply H0|]. split.
  - pose proof (Qsum_term_le (fun j' => a (name (x i j'))) centros j) as H.
    cbv beta in H. apply Qle_trans with (2 := Ho). apply H; [|exact Hj].
    apply Forall_forall. intros j' Hj'. now apply H0.
  - pose proof (Qsum_term_le (fun i' => a (name (x i' j))) armazens i) as H.
    cbv beta in H. rewrite <- Hp. apply H; [|exact Hi].
    apply Forall_forall. intros i' Hi'. now apply H0.
Qed.

End Geral.

(** The script's data and its optimal plan, as an instance of X2. *)
Lemma feasible_iff_supply_and_demand_met_witness :
  exists m, model = Some m /\
    (feasible m plano_B <->
     Forall (fun ij => 0 <= plano_B (name (x ij.1 ij.2)))
            (pairs armazens centros) /\
     Forall (fun i => Qsum (fun j => plano_B (name (x i j))) centros
                      <= default 0 (oferta !! i)) armazens /\
     Forall (fun j => Qsum (fun i => plano_B (name (x i j))) armazens
                      == default 0 (procura !! j)) centros).
Proof.
  destruct model as [m|] eqn:E; [|vm_compute in E; discriminate E].
  exists m. split; [reflexivity|].
  exact (feasible_iff_supply_and_demand_met armazens centros oferta procura
           "Transporte_Adega" true custo_inicial m plano_B E).
Defined.

(** The route A1->CD3 of the script's optimal plan, as an instance of X3:
    it carries 250 boxes, the whole demand of CD3. *)
Lemma feasible_route_within_supply_and_demand_witness :
  exists m, model = Some m /\ feasible m plano_B /\
    0 <= plano_B (name (x "A1" "CD3")) /\
    plano_B (name (x "A1" "CD3")) <= default 0 (oferta !! "A1") /\
    plano_B (name (x "A1" "CD3")) <= default 0 (procura !! "CD3").
Proof.
  destruct model as [m|] eqn:E; [|vm_compute in E; discriminate E].
  exists m. split; [reflexivity|].
  assert (Hf : feasible m plano_B).
  { pose proof E as E'. model_known E'. feasible_by_test. }
  split; [exact Hf|].
  apply (feasible_route_within_supply_and_demand armazens centros oferta
           procura "Transporte_Adega" true custo_inicial m plano_B
           "A1" "CD3" E Hf); apply list_elem_of_In; simpl; auto.
Defined.

End FormulacaoFacts.

(** ** transporte.py: the table and the cost curve of the script's data *)

Module TransporteCurva.
Import Pulp Script PulpFacts SolveFacts SumFacts Transporte.

(** The plan that is optimal while A2->CD3 costs at most 3: A2 serves
    CD3 in full. *)
Definition plano_C : Assignment :=
  valores [("x_A1_CD1", 200); ("x_A2_CD2", 250); ("x_A2_CD3", 250)].

(** Two rows of the table with equal labels and equal numbers. *)
Definition row_eq (r r' : Row) : Prop :=
  match r, r' with
  | (i, j, q, c, t), (i', j', q', c', t') =>
      i = i' /\ j = j' /\ q == q' /\ c == c' /\ t == t'
  end.

(** Tabela 1 as the script prints it. *)
Definition tabela_1 : list Row :=
  [("A1", "CD1", 50, 2.0, 100); ("A1", "CD3", 250, 3.0, 750);
   ("A2", "CD1", 150, 2.5, 375); ("A2", "CD2", 250, 2.0, 500)].

Lemma row_eq_trans (r1 r2 r3 : Row) :
  row_eq r1 r2 -> row_eq r2 r3 -> row_eq r1 r3.
Proof.
  destruct r1 as [[[[i1 j1] q1] c1] t1], r2 as [[[[i2 j2] q2] c2] t2],
    r3 as [[[[i3 j3] q3] c3] t3].
  unfold row_eq. intros (-> & -> & Hq & Hc & Ht) (-> & -> & Hq' & Hc' & Ht').
  repeat split; etrans; eauto.
Qed.

Lemma plano_C_optimal (c : Q) (m : LpProblem) :
  c <= 3 ->
  model_sens (<[("A2", "CD3") := c]> custo_inicial) = Some m ->
  optimal m plano_C.
Proof.
  intros Hc E. model_known E. split.
  - feasible_by_test.
  - intros b Hb. split_feasible Hb. unfold no_worse. cbn.
    eval_plan plano_C.
    assert (0 <= (3 - c) * (250 - b "x_A2_CD3"))
      by (apply Qmult_le_0_compat; lra).
    lra.
Qed.

(** An optimal plan of the base model is [plano_B], route by route. *)
Lemma plano_B_unique (m : LpProblem) (a : Assignment) :
  model = Some m -> optimal m a ->
  Forall (fun ij => a (name (x ij.1 ij.2)) == plano_B (name (x ij.1 ij.2)))
         (pairs armazens centros).
Proof.
  intros E [Hf Hbest].
  pose proof (TransporteFacts.plano_B_optimal_base m E) as [Ho _].
  specialize (Hbest plano_B Ho). clear Ho.
  model_known E. split_feasible Hf. unfold no_worse in Hbest. cbn in Hbest.
  revert Hbest. eval_plan plano_B. intros Hbest.
  apply Forall_fold. unfold armazens, centros.
  cbn [pairs flat_map map app fold_right fst snd x LpVariable_new name].
  eval_names. eval_plan plano_B.
  repeat (split; [lra|]). exact I.
Qed.

(** The row a route contributes depends on its quantity only up to
    equality of numbers. *)
Lemma solucao_row_ext (custo : gmap (string * string) Q)
    (a a' : Assignment) (ij : string * string) :
  a (name (x ij.1 ij.2)) == a' (name (x ij.1 ij.2)) ->
  option_Forall2 (Forall2 row_eq) (solucao_row custo a ij)
                 (solucao_row custo a' ij).
Proof.
  intros H. unfold solucao_row.
  destruct (Qlt_le_dec 0 (a _)), (Qlt_le_dec 0 (a' _)); try lra.
  - destruct (custo !! ij) as [c|]; simpl; constructor.
    constructor; [|constructor]. unfold row_eq.
    repeat split; try reflexivity; [exact H | now rewrite H].
  - constructor. constructor.
Qed.

Lemma solucao_rows_ext (custo : gmap (string * string) Q)
    (a a' : Assignment) (l : list (string * string)) :
  Forall (fun ij => a (name (x ij.1 ij.2)) == a' (name (x ij.1 ij.2))) l ->
  option_Forall2 (Forall2 row_eq)
    (@concat Row <$> mapM (solucao_row custo a) l)
    (@concat Row <$> mapM (solucao_row custo a') l).
Proof.
  induction 1 as [|ij l Hij _ IH]; [repeat constructor|].
  cbn [mapM]. pose proof (solucao_row_ext custo a a' ij Hij) as Hr.
  destruct Hr as [r r' Hr|]; simpl; [|constructor].
  destruct (mapM (solucao_row custo a) l) as [t|],
    (mapM (solucao_row custo a') l) as [t'|];
    simpl in *; inversion IH; subst; constructor.
  now apply Forall2_app.
Qed.

(** X4: the optimal plan of the base model is unique, so the table the
    script extracts is the same whatever optimal plan the solver returns:
    the four rows of [tabela_1]. *)
Theorem tabela_1_is_determined :
  exists m, model = Some m /\
    optimal m plano_B /\
    forall a, optimal m a ->
      Forall (fun ij => a (name (x ij.1 ij.2))
                        == plano_B (name (x ij.1 ij.2)))
             (pairs armazens centros) /\
      exists rows, solucao a = Some rows /\ Forall2 row_eq rows tabela_1.
Proof.
  destruct model as [m|] eqn:E; [|vm_compute in E; discriminate E].
  exists m. split; [reflexivity|].
  split; [now apply TransporteFacts.plano_B_optimal_base|].
  intros a Ha. pose proof (plano_B_unique m a E Ha) as Hu.
  split; [exact Hu|].
  pose proof (solucao_rows_ext custo_inicial a plano_B _ Hu) as Hr.
  fold (solucao a) in Hr. fold (solucao plano_B) in Hr.
  destruct (solucao plano_B) as [rowsB|] eqn:Hb;
    [|vm_compute in Hb; discriminate Hb].
  inversion Hr as [rows ? Hrows|]. subst.
  exists rows. split; [reflexivity|].
  assert (Htr : Transitive row_eq) by exact row_eq_trans.
  etrans; [exact Hrows|].
  vm_compute in Hb. injection Hb as <-.
  unfold tabela_1, row_eq. repeat constructor.
Qed.

(** The optimal total cost in each of the three regimes of the cost [c]
    of A2->CD3. *)
Lemma valor_ate_3 (c : Q) (m : LpProblem) (a : Assignment) :
  c <= 3 ->
  model_sens (<[("A2", "CD3") := c]> custo_inicial) = Some m ->
  optimal m a -> value (objective m) a == 900 + 250 * c.
Proof.
  intros Hc E Ha.
  rewrite (optimal_values_agree m a plano_C Ha (plano_C_optimal c m Hc E)).
  model_known E. cbn. eval_plan plano_C. lra.
Qed.

Lemma valor_de_3_a_35 (c : Q) (m : LpProblem) (a : Assignment) :
  3 <= c -> c <= 3.5 ->
  model_sens (<[("A2", "CD3") := c]> custo_inicial) = Some m ->
  optimal m a -> value (objective m) a == 1200 + 150 * c.
Proof.
  intros Hc0 Hc E Ha.
  rewrite (optimal_values_agree m a plano_A Ha
             (TransporteFacts.plano_A_optimal c m Hc0 Hc E)).
  model_known E. cbn. eval_plan plano_A. lra.
Qed.

Lemma valor_desde_35 (c : Q) (m : LpProblem) (a : Assignment) :
  3.5 <= c ->
  model_sens (<[("A2", "CD3") := c]> custo_inicial) = Some m ->
  optimal m a -> value (objective m) a == 1725.
Proof.
  intros Hc E Ha.
  rewrite (optimal_values_agree m a plano_B Ha
             (TransporteFacts.plano_B_optimal c m Hc E)).
  model_known E. cbn. eval_plan plano_B. lra.
Qed.

(** X5: the optimal total cost as a function of the cost [c] of A2->CD3.
    Every scenario has an optimal plan, and its total cost is
    [900 + 250 c] up to a cost of 3, [1200 + 150 c] between 3 and 3.5,
    and 1725 from 3.5 on, where the route is no longer used. *)
Theorem transporte_cost_curve (c : Q) :
  exists m, model_sens (<[("A2", "CD3") := c]> custo_inicial) = Some m /\
    (exists a, optimal m a) /\
    forall a, optimal m a ->
      (c <= 3 -> value (objective m) a == 900 + 250 * c) /\
      (3 <= c -> c <= 3.5 -> value (objective m) a == 1200 + 150 * c) /\
      (3.5 <= c -> value (objective m) a == 1725).
Proof.
  destruct (model_sens (<[("A2", "CD3") := c]> custo_inicial))
    as [m|] eqn:E; [|vm_compute in E; discriminate E].
  exists m. split; [reflexivity|]. split.
  - destruct (Qlt_le_dec c 3); [|destruct (Qlt_le_dec c 3.5)].
    + exists plano_C. apply (plano_C_optimal c); [lra | exact E].
    + exists plano_A.
      apply (TransporteFacts.plano_A_optimal c); [lra | lra | exact E].
    + exists plano_B. now apply (TransporteFacts.plano_B_optimal c).
  - intros a Ha. split; [|split].
    + intros Hc. now apply (valor_ate_3 c).
    + intros Hc0 Hc. now apply (valor_de_3_a_35 c).
    + intros Hc. now apply (valor_desde_35 c).
Qed.

(** The value the sweep records for a cost of 3 or more. *)
Definition valor_esperado (c : Q) : Q :=
  if Qle_bool c 3.5 then 1200 + 150 * c else 1725.

(** X6: the list the sensitivity loop builds is the same for every solver
    that answers each scenario with an optimal plan: 1650 for the first
    cost, 3.0, and 1725 for the ten others. *)
Theorem custo_total_lista_is_1650_then_1725
    (solve : LpProblem -> Solution) :
  (forall c m, In c custos_variados ->
     model_sens (<[("A2", "CD3") := c]> custo_inicial) = Some m ->
     optimal m (varValue (solve m))) ->
  exists l, custo_total_lista solve = Some l /\
            Forall2 Qeq l (1650 :: replicate 10 1725).
Proof.
  intros Hsolve.
  destruct (SweepFacts.transporte_loop_from solve custo_inicial
              custos_variados inicio)
    as (st & ms & Hrun & Hms & _ & Hres & _).
  { apply lookup_singleton_eq. }
  { apply SweepFacts.transporte_model_sens_total. }
  exists (results st). unfold custo_total_lista, sens_loop.
  rewrite Hrun. split; [reflexivity|].
  simpl in Hres. rewrite Hres.
  assert (H : Forall2 (fun c v => v == valor_esperado c) custos_variados
                (map (fun m => value (objective m) (varValue (solve m)))
                     ms)).
  { apply Forall2_fmap_r. eapply Forall2_impl.
    - apply Forall2_and_In_l. exact Hms.
    - intros c m [Hin E]. cbv beta.
      pose proof (Hsolve c m Hin E) as Ho.
      apply TransporteFacts.custos_variados_ge_3 in Hin.
      unfold valor_esperado. destruct (Qle_bool c 3.5) eqn:Hb.
      + apply Qle_bool_iff in Hb. now apply (valor_de_3_a_35 c).
      + apply not_true_iff_false in Hb. rewrite Qle_bool_iff in Hb.
        apply (valor_desde_35 c); [lra | exact E | exact Ho]. }
  assert (Hv : Forall2 Qeq (map valor_esperado custos_variados)
                 (1650 :: replicate 10 1725)).
  { vm_compute. repeat constructor. }
  assert (Htr : Transitive Qeq) by exact Qeq_trans.
  etrans; [|exact Hv]. apply Forall2_fmap_r.
  eapply Forall2_flip, Forall2_impl; [exact H|]. intros c v Hcv. exact Hcv.
Qed.

(** The script's sweep under the reference solver, as an instance. *)
Lemma custo_total_lista_is_1650_then_1725_witness :
  exists l, custo_total_lista solve_ref = Some l /\
            Forall2 Qeq l (1650 :: replicate 10 1725).
Proof.
  exact (custo_total_lista_is_1650_then_1725 solve_ref
           TransporteFacts.solve_ref_ok).
Defined.

End TransporteCurva.

(** ** afetacao.py: the cost curve of the sensitivity loop *)

Module AfetacaoCurva.
Import Pulp Script PulpFacts SolveFacts SumFacts Afetacao.

(** The optimal total cost in the two regimes of the cost [c] of
    F4->Controlo. *)
Lemma valor_ate_25 (c : Q) (m : LpProblem) (a : Assignment) :
  c <= 25 ->
  m_sens (<[("F4", "Controlo") := c]> custo_inicial) = Some m ->
  optimal m a -> value (objective m) a == 80 + c.
Proof.
  intros Hc E Ha.
  rewrite (optimal_values_agree m a otimo Ha
             (AfetacaoFacts.otimo_optimal_sens c m Hc E)).
  model_known E. cbn. eval_plan otimo. lra.
Qed.

Lemma valor_desde_25 (c : Q) (m : LpProblem) (a : Assignment) :
  25 <= c ->
  m_sens (<[("F4", "Controlo") := c]> custo_inicial) = Some m ->
  optimal m a -> value (objective m) a == 105.
Proof.
  intros Hc E Ha.
  rewrite (optimal_values_agree m a alternativa Ha
             (AfetacaoFacts.alternativa_optimal_sens c m Hc E)).
  model_known E. cbn. eval_plan alternativa. lra.
Qed.

(** X7: the optimal total cost as a function of the cost [c] of
    F4->Controlo.  Every scenario has an optimal allocation; its total cost
    is [80 + c] while [c] is at most 25, where F4 keeps Controlo, and 105
    from 25 on, where F4 moves to Transporte. *)
Theorem afetacao_cost_curve (c : Q) :
  exists m, m_sens (<[("F4", "Controlo") := c]> custo_inicial) = Some m /\
    (exists a, optimal m a) /\
    forall a, optimal m a ->
      (c <= 25 -> value (objective m) a == 80 + c) /\
      (25 <= c -> value (objective m) a == 105).
Proof.
  destruct (m_sens (<[("F4", "Controlo") := c]> custo_inicial))
    as [m|] eqn:E; [|vm_compute in E; discriminate E].
  exists m. split; [reflexivity|].
  split; [now apply (AfetacaoFacts.m_sens_has_optimum c)|].
  intros a Ha. split; intros Hc.
  - now apply (valor_ate_25 c).
  - now apply (valor_desde_25 c).
Qed.

(** The value the sweep records for a cost [c]. *)
Definition valor_esperado (c : Q) : Q :=
  if Qle_bool c 25 then 80 + c else 105.

(** A solver for the models of this script's sweep: it reads the cost of
    F4->Controlo off the objective and answers with the allocation that is
    optimal for it. *)
Definition solve_ref (m : LpProblem) : Solution :=
  MkSolution LpStatusOptimal
    (if Qle_bool (coefficient "x_F4_Controlo" (objective m)) 25
     then otimo else alternativa).

Lemma afetacao_solve_ref_ok (c : Q) (m : LpProblem) :
  m_sens (<[("F4", "Controlo") := c]> custo_inicial) = Some m ->
  optimal m (varValue (solve_ref m)).
Proof.
  intros E. unfold solve_ref. pose proof E as E'. model_known E'.
  destruct (Qle_bool _ 25) eqn:Hb; cbn [varValue].
  - apply Qle_bool_iff in Hb. cbn in Hb.
    apply (AfetacaoFacts.otimo_optimal_sens c); [lra | exact E].
  - apply not_true_iff_false in Hb. rewrite Qle_bool_iff in Hb. cbn in Hb.
    apply (AfetacaoFacts.alternativa_optimal_sens c); [lra | exact E].
Qed.

(** X8: the list the sensitivity loop over [linspace(20, 50, 7)] builds is
    the same for every solver that answers each scenario with an optimal
    allocation: 100 for the first cost, 20, and 105 for the six others. *)
Theorem ctotais_is_100_then_105 (solve : LpProblem -> Solution) :
  (forall c m, In c cvals ->
     m_sens (<[("F4", "Controlo") := c]> custo_inicial) = Some m ->
     optimal m (varValue (solve m))) ->
  exists l, ctotais solve = Some l /\
            Forall2 Qeq l (100 :: replicate 6 105).
Proof.
  intros Hsolve.
  destruct (SweepFacts.afetacao_loop_from solve custo_inicial cvals inicio)
    as (st & ms & Hrun & Hms & _ & Hres & _).
  { apply lookup_singleton_eq. }
  { apply SweepFacts.afetacao_m_sens_total. }
  exists (results st). unfold ctotais, sens_loop.
  rewrite Hrun. split; [reflexivity|].
  simpl in Hres. rewrite Hres.
  assert (H : Forall2 (fun c v => v == valor_esperado c) cvals
                (map (fun m => value (objective m) (varValue (solve m)))
                     ms)).
  { apply Forall2_fmap_r. eapply Forall2_impl.
    - apply Forall2_and_In_l. exact Hms.
    - intros c m [Hin E]. cbv beta.
      pose proof (Hsolve c m Hin E) as Ho.
      unfold valor_esperado. destruct (Qle_bool c 25) eqn:Hb.
      + apply Qle_bool_iff in Hb. now apply (valor_ate_25 c).
      + apply not_true_iff_false in Hb. rewrite Qle_bool_iff in Hb.
        apply (valor_desde_25 c); [lra | exact E | exact Ho]. }
  assert (Hv : Forall2 Qeq (map valor_esperado cvals)
                 (100 :: replicate 6 105)).
  { vm_compute. repeat constructor. }
  assert (Htr : Transitive Qeq) by exact Qeq_trans.
  etrans; [|exact Hv]. apply Forall2_fmap_r.
  eapply Forall2_flip, Forall2_impl; [exact H|]. intros c v Hcv. exact Hcv.
Qed.

(** The script's sweep under the reference solver, as an instance. *)
Lemma ctotais_is_100_then_105_witness :
  exists l, ctotais solve_ref = Some l /\
            Forall2 Qeq l (100 :: replicate 6 105).
Proof.
  exact (ctotais_is_100_then_105 solve_ref
           (fun c m _ E => afetacao_solve_ref_ok c m E)).
Defined.

End AfetacaoCurva.

(** ** afetacao.py: the extraction loop on any solved values *)

Module ExtracaoFacts.
Import Pulp Script PulpFacts SumFacts Afetacao.

(** The test of the loop, [value(x[(i,j)]) == 1]. *)
Definition vale_1 (a : Assignment) (ij : string * string) : bool :=
  Qeq_bool (a (name (x (Some 0) (Some 1) ij.1 ij.2))) 1.

(** The pairs that pass the test, in the order the loop visits them. *)
Definition escolhidos (a : Assignment) : list (string * string) :=
  List.filter (vale_1 a) (pairs funcionarios tarefas).

(** The last element of a list, if any. *)
Fixpoint ultimo {A : Type} (l : list A) : option A :=
  match l with
  | [] => None
  | v :: l' => match ultimo l' with Some w => Some w | None => Some v end
  end.

(** The last pair among [l] that names the task [j]. *)
Definition ultimo_de (j : string) (l : list (string * string))
    : option (string * string) :=
  ultimo (List.filter (fun ij => String.eqb ij.2 j) l).

(** The worker and cost the loop leaves recorded for the task [j]: those
    of the last pair for [j] that passes the test. *)
Definition registo (a : Assignment) (j : string) : option (string * Q) :=
  ij ← ultimo_de j (escolhidos a);
  c ← custo_inicial !! ij;
  Some (ij.1, c).

(** The line the loop prints for a pair. *)
Definition linha (ij : string * string) : string * string * Q :=
  (ij.2, ij.1, default 0 (custo_inicial !! ij)).

(** *** Writing to the dictionary *)

Lemma assoc_set_keys {V : Type} (k : string) (v : V)
    (d : list (string * V)) (j : string) :
  In j (map fst (assoc_set k v d)) <-> j = k \/ In j (map fst d).
Proof.
  induction d as [|[k' v'] d IH]; simpl.
  - intuition.
  - destruct (decide (k = k')) as [->|Hne]; simpl.
    + intuition.
    + rewrite IH. intuition.
Qed.

Lemma assoc_set_NoDup {V : Type} (k : string) (v : V)
    (d : list (string * V)) :
  List.NoDup (map fst d) -> List.NoDup (map fst (assoc_set k v d)).
Proof.
  induction d as [|[k' v'] d IH]; simpl; intros H.
  - constructor; [intros []|constructor].
  - inversion H as [|? ? Hnin Hd]; subst.
    destruct (decide (k = k')) as [->|Hne]; simpl.
    + constructor; assumption.
    + constructor; [|now apply IH].
      rewrite assoc_set_keys. intros [->|Hin]; [now apply Hne|].
      now apply Hnin.
Qed.

(** After [d[k] = v] the dictionary holds [v] at [k] and what it held at
    every other key. *)
Lemma assoc_set_In {V : Type} (k : string) (v : V)
    (d : list (string * V)) (j : string) (w : V) :
  List.NoDup (map fst d) ->
  In (j, w) (assoc_set k v d) <->
  (j = k /\ w = v) \/ (j <> k /\ In (j, w) d).
Proof.
  induction d as [|[k' v'] d IH]; simpl; intros H.
  - split.
    + intros [E|[]]. injection E as <- <-. now left.
    + intros [[-> ->]|[_ []]]. now left.
  - inversion H as [|? ? Hnin Hd]; subst.
    destruct (decide (k = k')) as [->|Hne]; simpl.
    + split.
      * intros [E|Hin]; [injection E as <- <-; now left|].
        right. split; [|now right]. intros ->. apply Hnin.
        apply in_map_iff. now exists (k', w).
      * intros [[-> ->]|[Hne [E|Hin]]]; [now left| |now right].
        injection E as <- <-. now destruct Hne.
    + rewrite (IH Hd). split.
      * intros [E|[[-> ->]|[Hjk Hin]]].
        -- injection E as <- <-. right. split; [congruence|now left].
        -- now left.
        -- right. split; [exact Hjk|now right].
      * intros [[-> ->]|[Hjk [E|Hin]]].
        -- right. now left.
        -- now left.
        -- right. right. now split.
Qed.

Lemma assoc_set_length {V : Type} (k : string) (v : V)
    (d : list (string * V)) :
  (length (assoc_set k v d) <= S (length d))%nat.
Proof.
  induction d as [|[k' v'] d IH]; simpl; [lia|].
  destruct (decide (k = k')); simpl; lia.
Qed.

(** *** The loop from any state *)

(** The loop over pairs the cost table knows, from a state whose
    dictionary has distinct keys: it does not raise; it prints one line per
    pair that passes the test, in order; it keeps the keys distinct; and it
    leaves at each task the last passing pair for it, or what the state
    held when there is none. *)
Lemma extrair_from (a : Assignment) (l : list (string * string))
    (st : Extracao) :
  Forall (fun ij => is_Some (custo_inicial !! ij)) l ->
  List.NoDup (map fst (alocacao st)) ->
  exists e, for_each (extrair_body a) l st = Some e /\
    impresso e = (impresso st ++ map linha (List.filter (vale_1 a) l))%list /\
    List.NoDup (map fst (alocacao e)) /\
    (length (alocacao e)
     <= length (alocacao st) + length (List.filter (vale_1 a) l))%nat /\
    forall j v, In (j, v) (alocacao e) <->
      match ultimo_de j (List.filter (vale_1 a) l) with
      | Some ij => v = (ij.1, default 0 (custo_inicial !! ij))
      | None => In (j, v) (alocacao st)
      end.
Proof.
  intros Hl. revert st.
  induction Hl as [|ij l [c Hc] _ IH]; intros st Hnd.
  - exists st. simpl. rewrite app_nil_r.
    repeat split; auto; lia.
  - cbn [for_each List.filter]. unfold extrair_body at 1.
    fold (vale_1 a ij). destruct (vale_1 a ij) eqn:Hv.
    + rewrite Hc. cbn [mbind option_bind].
      destruct (IH (MkExtracao (assoc_set ij.2 (ij.1, c) (alocacao st))
                      (impresso st ++ [(ij.2, ij.1, c)])%list))
        as (e & Hrun & Himp & Hnd' & Hlen & Hin).
      { cbn [alocacao]. now apply assoc_set_NoDup. }
      exists e. cbn [alocacao impresso] in *.
      split; [exact Hrun|]. split; [|split; [exact Hnd'|split]].
      * rewrite Himp, <- app_assoc. cbn [map app]. unfold linha at 2.
        now rewrite Hc.
      * pose proof (assoc_set_length ij.2 (ij.1, c) (alocacao st)).
        cbn [length]. lia.
      * intros j v. rewrite (Hin j v). unfold ultimo_de.
        cbn [List.filter]. destruct (String.eqb ij.2 j) eqn:Ej.
        -- apply String.eqb_eq in Ej. cbn [ultimo].
           destruct (ultimo _) as [ij'|]; [reflexivity|].
           rewrite (assoc_set_In _ _ _ _ _ Hnd), Hc. cbn [default].
           split.
           ++ intros [[_ ->]|[Hne _]]; [reflexivity|]. now destruct Hne.
           ++ intros ->. left. now split.
        -- apply String.eqb_neq in Ej.
           destruct (ultimo _) as [ij'|]; [reflexivity|].
           rewrite (assoc_set_In _ _ _ _ _ Hnd). split.
           ++ intros [[-> _]|[_ H]]; [now destruct Ej|exact H].
           ++ intros H. right. split; [congruence|exact H].
    + destruct (IH st Hnd) as (e & Hrun & Himp & Hnd' & Hlen & Hin).
      exists e. auto.
Qed.

Lemma custo_inicial_knows_every_pair :
  Forall (fun ij => is_Some (custo_inicial !! ij))
         (pairs funcionarios tarefas).
Proof.
  unfold funcionarios, tarefas. cbn [pairs flat_map map app].
  repeat (constructor; [vm_compute; eauto|]). constructor.
Qed.

(** X9: whatever values the solve left in the variables, the extraction
    loop does not raise; it prints one line for each pair whose variable is
    exactly 1, in loop order; and the dictionary it builds has distinct
    tasks as keys, holds for a task the worker and cost of the last such
    pair for that task (a later worker overwrites an earlier one), and has
    no more entries than lines were printed. *)
Theorem extraction_keeps_last_worker_per_task (a : Assignment) :
  exists e, extrair a = Some e /\
    impresso e = map linha (escolhidos a) /\
    List.NoDup (tarefas_ord e) /\
    (length (alocacao e) <= length (impresso e))%nat /\
    forall j v, In (j, v) (alocacao e) <-> registo a j = Some v.
Proof.
  destruct (extrair_from a (pairs funcionarios tarefas) (MkExtracao [] [])
              custo_inicial_knows_every_pair)
    as (e & Hrun & Himp & Hnd & Hlen & Hin).
  { constructor. }
  exists e. cbn [alocacao impresso app length] in *.
  split; [exact Hrun|]. split; [exact Himp|]. split; [exact Hnd|].
  split.
  - rewrite Himp, length_map. exact Hlen.
  - intros j v. rewrite (Hin j v). unfold registo, escolhidos.
    destruct (ultimo_de j _) as [ij|] eqn:Eu; cbn [mbind option_bind].
    + assert (Hk : is_Some (custo_inicial !! ij)).
      { pose proof custo_inicial_knows_every_pair as H.
        rewrite List.Forall_forall in H. apply H.
        unfold ultimo_de in Eu.
        assert (Hl : forall (l : list (string * string)) w,
                   ultimo l = Some w -> In w l).
        { clear. induction l as [|v l IH]; simpl; [discriminate|].
          intros w. destruct (ultimo l) as [u|].
          - intros E. injection E as <-. right. now apply IH.
          - intros E. injection E as <-. now left. }
        apply Hl in Eu. apply List.filter_In in Eu as [Eu _].
        now apply List.filter_In in Eu as [Eu _]. }
      destruct Hk as [c Hc]. rewrite Hc. cbn [default mbind option_bind].
      split; [intros ->; reflexivity|]. intros E. now injection E as <-.
    + split; [intros []|discriminate].
Qed.

(** Two workers at 1 for one task: both lines are printed, the dictionary
    keeps the later worker. *)
Example extrair_two_workers_one_task :
  extrair (valores [("x_F1_Lavagem", 1); ("x_F3_Lavagem", 1)])
  = Some (MkExtracao [("Lavagem", ("F3", 20))]
            [("Lavagem", "F1", 25); ("Lavagem", "F3", 20)]).
Proof. vm_compute. reflexivity. Qed.

End ExtracaoFacts.

(** ** metas.py: the printed figures and the weight loop *)

Module MetasCurva.
Import Pulp Script PulpFacts SolveFacts SumFacts Metas.

(** The rows of a model of the weight loop; they do not depend on the
    weight. *)
Definition linhas_m2 : list LpConstraint :=
  Eval vm_compute in
    match m2 0 with Some m => constraints m | None => [] end.

Lemma m2_shape (w : Q) :
  m2 w = Some (MkLpProblem "ProgMetas_sens" LpMinimize
                 [(1 * 1, d1_plus); (w * 1, d2_minus); (w * 1, d2_plus)]
                 linhas_m2).
Proof.
  unfold m2, formulate.
  let v := eval vm_compute in (cost_expr custo) in
  assert (H : cost_expr custo = v) by (vm_compute; reflexivity);
  rewrite H; clear H.
  let v := eval vm_compute in (restricoes false) in
  assert (H : restricoes false = v) by (vm_compute; reflexivity);
  rewrite H; clear H.
  cbn [mbind option_bind]. unfold set_objective. reflexivity.
Qed.

Lemma plano_meta_optimal_w (w : Q) (m : LpProblem) :
  0 <= w -> w <= 3 -> m2 w = Some m -> optimal m plano_meta.
Proof.
  intros Hw0 Hw3 E. rewrite m2_shape in E. injection E as <-. split.
  - feasible_by_test.
  - intros b Hb. split_feasible Hb. unfold no_worse. cbn.
    eval_plan plano_meta.
    assert (0 <= w * (b "d2_minus" + b "d2_plus"
                      - ((350 # 3) - (1 # 3) * b "d1_plus")))
      by (apply Qmult_le_0_compat; lra).
    assert (0 <= (3 - w) * b "d1_plus")
      by (apply Qmult_le_0_compat; lra).
    lra.
Qed.

Lemma plano_A2_optimal_w (w : Q) (m : LpProblem) :
  3 <= w -> m2 w = Some m -> optimal m plano_A2.
Proof.
  intros Hw3 E. rewrite m2_shape in E. injection E as <-. split.
  - feasible_by_test.
  - intros b Hb. split_feasible Hb. unfold no_worse. cbn.
    eval_plan plano_A2.
    assert (0 <= (w - 3) * (b "d2_minus" + b "d2_plus"))
      by (apply Qmult_le_0_compat; lra).
    lra.
Qed.

Lemma plano_barato_optimal_0 (w : Q) (m : LpProblem) :
  w == 0 -> m2 w = Some m -> optimal m plano_barato.
Proof.
  intros Hw E. rewrite m2_shape in E. injection E as <-. split.
  - feasible_by_test.
  - intros b Hb. split_feasible Hb. unfold no_worse. cbn.
    eval_plan plano_barato. rewrite Hw. lra.
Qed.

Lemma expA2_abaixo_de_3 (w : Q) (m : LpProblem) (a : Assignment) :
  0 < w -> w < 3 -> m2 w = Some m -> optimal m a ->
  value exp_A2 a == 850 # 3.
Proof.
  intros Hw0 Hw3 E [Hf Hbest].
  assert (Ho : optimal m plano_meta)
    by (apply (plano_meta_optimal_w w); [lra | lra | exact E]).
  destruct Ho as [Ho _]. specialize (Hbest plano_meta Ho). clear Ho.
  rewrite m2_shape in E. injection E as <-.
  split_feasible Hf. unfold no_worse in Hbest. cbn in Hbest.
  revert Hbest. eval_plan plano_meta. intros Hbest.
  unfold exp_A2, centros. cbn. eval_names.
  assert (H1 : 0 <= w * (a "d2_minus" + a "d2_plus"
                         - ((350 # 3) - (1 # 3) * a "d1_plus")))
    by (apply Qmult_le_0_compat; lra).
  assert (H2 : 0 <= (3 - w) * a "d1_plus")
    by (apply Qmult_le_0_compat; lra).
  assert (H3 : (3 - w) * a "d1_plus" == 0) by lra.
  assert (H4 : w * (a "d2_minus" + a "d2_plus"
                    - ((350 # 3) - (1 # 3) * a "d1_plus")) == 0) by lra.
  apply Qmult_integral in H3. apply Qmult_integral in H4.
  destruct H3 as [H3|H3]; [lra|]. destruct H4 as [H4|H4]; [lra|].
  lra.
Qed.

Lemma expA2_acima_de_3 (w : Q) (m : LpProblem) (a : Assignment) :
  3 < w -> m2 w = Some m -> optimal m a ->
  value exp_A2 a == 400.
Proof.
  intros Hw3 E [Hf Hbest].
  assert (Ho : optimal m plano_A2)
    by (apply (plano_A2_optimal_w w); [lra | exact E]).
  destruct Ho as [Ho _]. specialize (Hbest plano_A2 Ho). clear Ho.
  rewrite m2_shape in E. injection E as <-.
  split_feasible Hf. unfold no_worse in Hbest. cbn in Hbest.
  revert Hbest. eval_plan plano_A2. intros Hbest.
  unfold exp_A2, centros. cbn. eval_names.
  assert (H1 : 0 <= (w - 3) * (a "d2_minus" + a "d2_plus"))
    by (apply Qmult_le_0_compat; lra).
  assert (H2 : (w - 3) * (a "d2_minus" + a "d2_plus") == 0) by lra.
  apply Qmult_integral in H2. destruct H2 as [H2|H2]; [lra|].
  lra.
Qed.



(** The plan [a] with both deviations from the A2 target raised by [t]. *)
Definition desviar (a : Assignment) (t : Q) : Assignment :=
  fun n => if String.eqb n "d2_minus" || String.eqb n "d2_plus"
           then a n + t else a n.

(** With a negative weight the programme has no optimal plan: raising both
    deviations from the A2 target together keeps every row and lowers the
    objective. *)
Lemma sem_otimo_abaixo_de_0 (w : Q) (m : LpProblem) (a : Assignment) :
  w < 0 -> m2 w = Some m -> ~ optimal m a.
Proof.
  intros Hw E [Hf Hbest].
  rewrite m2_shape in E. injection E as <-.
  assert (Hf' : feasible
                  (MkLpProblem "ProgMetas_sens" LpMinimize
                     [(1 * 1, d1_plus); (w * 1, d2_minus);
                      (w * 1, d2_plus)] linhas_m2)
                  (desviar a 1)).
  { split_feasible Hf. split; apply Forall_fold.
    - cbn. unfold satisfies. cbn. repeat split; lra.
    - unfold variables. cbn. unfold in_domain, above, below. cbn.
      repeat split; lra. }
  specialize (Hbest _ Hf'). unfold no_worse in Hbest. cbn in Hbest. lra.
Qed.

(** X10: the weight loop's model as a function of the weight [w] of the
    A2 target.  It has an optimal plan exactly when [w] is not negative;
    every optimal plan ships 850/3 boxes from A2 while [0 < w < 3], where
    the cost target wins, and 400 boxes once [w > 3], where the A2 target
    wins. *)
Theorem metas_weight_regimes (w : Q) :
  exists m, m2 w = Some m /\
    (0 <= w -> exists a, optimal m a) /\
    (w < 0 -> forall a, ~ optimal m a) /\
    forall a, optimal m a ->
      (0 < w -> w < 3 -> value exp_A2 a == 850 # 3) /\
      (3 < w -> value exp_A2 a == 400).
Proof.
  destruct (SweepFacts.metas_m2_total w) as [m E].
  exists m. split; [exact E|]. split; [|split].
  - intros Hw. destruct (Qlt_le_dec w 3).
    + exists plano_meta.
      apply (plano_meta_optimal_w w); [exact Hw | lra | exact E].
    + exists plano_A2. now apply (plano_A2_optimal_w w).
  - intros Hw a. now apply (sem_otimo_abaixo_de_0 w).
  - intros a Ha. split.
    + intros Hw0 Hw3. now apply (expA2_abaixo_de_3 w m).
    + intros Hw3. now apply (expA2_acima_de_3 w m).
Qed.



Lemma w2_values_ge_0 (w : Q) : In w w2_values -> 0 <= w.
Proof.
  assert (H : forallb (Qle_bool 0) w2_values = true)
    by (vm_compute; reflexivity).
  rewrite forallb_forall in H. intros Hw. apply Qle_bool_iff. now apply H.
Qed.

(** Two solvers for the models of the weight loop.  Both read the weight
    off the objective and answer with an optimal plan; where optimality
    leaves a choice, [solve_menos] ships the least from A2 and [solve_mais]
    the most. *)
Definition solve_menos (m : LpProblem) : Solution :=
  MkSolution LpStatusOptimal
    (let w := coefficient "d2_minus" (objective m) in
     if Qle_bool w 0 then plano_barato
     else if Qle_bool w 3 then plano_meta else plano_A2).

Definition solve_mais (m : LpProblem) : Solution :=
  MkSolution LpStatusOptimal
    (if Qle_bool 3 (coefficient "d2_minus" (objective m))
     then plano_A2 else plano_meta).

Lemma solve_menos_ok (w : Q) (m : LpProblem) :
  In w w2_values -> m2 w = Some m -> optimal m (varValue (solve_menos m)).
Proof.
  intros Hw E. apply w2_values_ge_0 in Hw.
  unfold solve_menos. pose proof E as E'.
  rewrite m2_shape in E'. injection E' as <-. cbn [varValue objective].
  destruct (Qle_bool _ 0) eqn:H0; [|destruct (Qle_bool _ 3) eqn:H3].
  - apply Qle_bool_iff in H0. cbn in H0.
    apply (plano_barato_optimal_0 w); [lra | exact E].
  - apply Qle_bool_iff in H3. cbn in H3.
    apply (plano_meta_optimal_w w); [lra | lra | exact E].
  - apply not_true_iff_false in H3. rewrite Qle_bool_iff in H3. cbn in H3.
    apply (plano_A2_optimal_w w); [lra | exact E].
Qed.

Lemma solve_mais_ok (w : Q) (m : LpProblem) :
  In w w2_values -> m2 w = Some m -> optimal m (varValue (solve_mais m)).
Proof.
  intros Hw E. apply w2_values_ge_0 in Hw.
  unfold solve_mais. pose proof E as E'.
  rewrite m2_shape in E'. injection E' as <-. cbn [varValue objective].
  destruct (Qle_bool 3 _) eqn:H3.
  - apply Qle_bool_iff in H3. cbn in H3.
    apply (plano_A2_optimal_w w); [lra | exact E].
  - apply not_true_iff_false in H3. rewrite Qle_bool_iff in H3. cbn in H3.
    apply (plano_meta_optimal_w w); [lra | lra | exact E].
Qed.



(** X12: the list the weight loop builds is not fixed by optimality.
    Two solvers that answer every scenario of the loop with an optimal plan
    give different lists: at the weight 0 one records 0 boxes and the other
    850/3, and at the weight 3 one records 850/3 boxes and the other 400. *)
Theorem expA2_list_depends_on_solver :
  (forall w m, In w w2_values -> m2 w = Some m ->
     optimal m (varValue (solve_menos m)) /\
     optimal m (varValue (solve_mais m))) /\
  exists l l', expA2_list solve_menos = Some l /\
    expA2_list solve_mais = Some l' /\
    Forall2 Qeq l [0; 850 # 3; 850 # 3; 850 # 3; 400; 400] /\
    Forall2 Qeq l' [850 # 3; 850 # 3; 850 # 3; 400; 400; 400].
Proof.
  split.
  - intros w m Hw E. split.
    + now apply (solve_menos_ok w).
    + now apply (solve_mais_ok w).
  - destruct (expA2_list solve_menos) as [l|] eqn:El;
      [|vm_compute in El; discriminate El].
    destruct (expA2_list solve_mais) as [l'|] eqn:El';
      [|vm_compute in El'; discriminate El'].
    exists l, l'. split; [reflexivity|]. split; [reflexivity|].
    vm_compute in El, El'. injection El as <-. injection El' as <-.
    split; repeat constructor.
Qed.




End MetasCurva.

(** ** The names the scripts give their variables *)

From Stdlib Require Import Ascii.

Module NomesFacts.
Import Pulp Script.

(** The key has no underscore in it. *)
Fixpoint sem_sublinhado (s : string) : bool :=
  match s with
  | EmptyString => true
  | String c s' => negb (Ascii.eqb c "_"%char) && sem_sublinhado s'
  end.






(** With an underscore in a first key two routes can share a name. *)
Example underscore_keys_share_a_name :
  name (Transporte.x "A" "B_C") = name (Transporte.x "A_B" "C").
Proof. reflexivity. Qed.

(** The keys of the three scripts have no underscore. *)
Example script_keys_have_no_underscore :
  forallb sem_sublinhado
    (Transporte.armazens ++ Afetacao.funcionarios ++ Metas.armazens)%list
  = true.
Proof. reflexivity. Qed.

End NomesFacts.
